(** * pkgcheck2html: classification, grouping and maintainer filtering

    A shallow embedding of [pkgcheck2html.py] (and of the grouping code it
    shares with [xml2html.py]) together with the properties its
    specification states about it.

    Python values are modelled as follows: [str] is [string], a tuple of
    strings is a [list string] ordered as Python orders tuples, a [dict]
    is a [gmap], a [set] or [frozenset] is a [gset], a generator that is
    consumed once is the list of the values it yields, and a function that
    can raise returns a [result]. *)

From Stdlib Require Import Strings.String Strings.Ascii Structures.OrdersEx.
From stdpp Require Import base option list strings gmap sorting lexico.


(** ** Python primitives *)

Module Py.

(** Exceptions that the modelled code can meet. *)
Inductive exn : Type :=
| OSError
| XMLSyntaxError
| AttributeError
| ValueError
| RecursionError.

(** The outcome of a call that may raise. *)
Inductive result (A : Type) : Type :=
| Ok (a : A)
| Raise (e : exn).
Global Arguments Ok {A} a.
Global Arguments Raise {A} e.

(** Sequencing: an exception of the first call ends the computation. *)
#[global] Instance result_ret : MRet result := λ A, Ok.
#[global] Instance result_bind : MBind result := λ A B k m,
  match m with
  | Ok a => k a
  | Raise e => Raise e
  end.

#[global] Instance result_fmap : FMap result := λ A B f m,
  match m with
  | Ok a => Ok (f a)
  | Raise e => Raise e
  end.

(** [[f(x) for x in l]] where [f] may raise. *)
Fixpoint map_r {A B} (f : A → result B) (l : list A) : result (list B) :=
  match l with
  | [] => Ok []
  | x :: l' => y ← f x; ys ← map_r f l'; Ok (y :: ys)
  end.

(** [x or ''] for [x] a string or [None]. *)
Definition or_empty (x : option string) : string := default "" x.

(** [s.startswith(p)]. *)
Definition startswith (s p : string) : bool := String.prefix p s.

(** [s.endswith(suf)]: some tail of [s] is [suf]. *)
Fixpoint endswith (s suf : string) : bool :=
  if String.eqb s suf then true
  else match s with
       | EmptyString => false
       | String _ s' => endswith s' suf
       end.

(** [sub in s] for strings: [sub] occurs in [s]. *)
Fixpoint contains (sub s : string) : bool :=
  if String.prefix sub s then true
  else match s with
       | EmptyString => false
       | String _ s' => contains sub s'
       end.

(** [s.replace(old, new)] for a non-empty [old]: occurrences are found
    from the left and do not overlap.  [skip] counts the characters of
    a replaced occurrence that are still to be passed over. *)
Fixpoint replace_from (old new : string) (skip : nat) (s : string) : string :=
  match s with
  | EmptyString => EmptyString
  | String c s' =>
      match skip with
      | S k => replace_from old new k s'
      | O =>
          if String.prefix old s
          then new +:+ replace_from old new (String.length old - 1) s'
          else String c (replace_from old new 0 s')
      end
  end.

Definition replace (old new s : string) : string := replace_from old new 0 s.

(** [sep.join(parts)]. *)
Fixpoint join (sep : string) (parts : list string) : string :=
  match parts with
  | [] => ""
  | [p] => p
  | p :: ps => p +:+ sep +:+ join sep ps
  end.

(** [s.split(sep)] for a one-character separator. *)
Fixpoint split_on (sep : ascii) (cur : string) (s : string) : list string :=
  match s with
  | EmptyString => [cur]
  | String c s' =>
      if Ascii.eqb c sep then cur :: split_on sep "" s'
      else split_on sep (cur +:+ String c "") s'
  end.

Definition split (sep : ascii) (s : string) : list string := split_on sep "" s.

(** [os.path.join(a, *ps)] on a POSIX system. *)
Definition path_join (a : string) (ps : list string) : string :=
  foldl (λ path b,
           if startswith b "/" then b
           else if bool_decide (path = "") || endswith path "/" then path +:+ b
                else path +:+ "/" +:+ b) a ps.

(** Python compares strings by code point; on UTF-8 encoded text this is
    the order of the byte sequences. *)
#[global] Instance string_lexico : Lexico string := String_as_OT.lt.

#[global] Instance string_lexico_po : StrictOrder (@lexico string _).
Proof. exact String_as_OT.lt_strorder. Qed.

#[global] Instance string_lexico_trichotomy : TrichotomyT (@lexico string _).
Proof.
  intros x y.
  destruct (CompSpec2Type (String_as_OT.compare_spec x y)) as [E|E|E].
  - left; right. exact E.
  - left; left. exact E.
  - right. exact E.
Defined.

(** The relation [sorted] orders by: [x] may stand before [y] when
    [y < x] is false. *)
Definition lexico_le {A} `{Lexico A} : relation A := λ x y, ¬ lexico y x.

(** Python's sort is stable and only asks [<].  [insert_by R x l] puts
    [x], which stood before the elements of [l] in the input, in front
    of the first element that is not below it. *)
Fixpoint insert_by {A} (R : relation A) `{∀ x y, Decision (R x y)}
    (x : A) (l : list A) : list A :=
  match l with
  | [] => [x]
  | y :: l' => if decide (R x y) then x :: l else y :: insert_by R x l'
  end.

Definition sorted_by {A} (R : relation A) `{∀ x y, Decision (R x y)}
    (l : list A) : list A :=
  foldr (insert_by R) [] l.

(** [sorted(l)]. *)
Definition sorted {A} `{Lexico A, ∀ x y : A, Decision (lexico x y)}
  (l : list A) : list A := sorted_by lexico_le l.

End Py.

Export Py.


(** ** XML elements

    What the code asks of an [lxml] element: its tag, attributes, text and
    child elements. *)

#[warnings="-register-all"]
Inductive Element : Type :=
| Elem (tag : string) (attrib : list (string * string))
       (text : option string) (children : list Element).

Definition tag (el : Element) : string :=
  match el with Elem t _ _ _ => t end.
Definition attrib (el : Element) : list (string * string) :=
  match el with Elem _ a _ _ => a end.
Definition text (el : Element) : option string :=
  match el with Elem _ _ x _ => x end.
Definition children (el : Element) : list Element :=
  match el with Elem _ _ _ c => c end.

(** [el.findall(t)]: the children with tag [t], in document order. *)
Definition findall (el : Element) (t : string) : list Element :=
  filter (λ c, tag c = t) (children el).

(** [el.findtext(t)]: the text of the first child with tag [t] (the empty
    string when that child has no text), [None] when there is no such
    child. *)
Definition findtext (el : Element) (t : string) : option string :=
  (λ c, or_empty (text c)) <$> head (findall el t).

(** [el.findtext(t, d)]. *)
Definition findtext_default (el : Element) (t d : string) : string :=
  default d (findtext el t).

(** [el.get(a)]: the value of attribute [a], [None] when it is not set. *)
Definition get (el : Element) (a : string) : option string :=
  (λ p : nat * (string * string), p.2.2) <$> list_find (λ kv, kv.1 = a) (attrib el).

(** ** ClassMapping *)

Record ClassMapping : Type := {
  _class_mapping : gmap string string;
  _excludes : gmap string (gmap string (gmap string (list string)))
}.

(** [ClassMapping.map]: every [.get] falls back to an empty container. *)
Definition ClassMapping_map (self : ClassMapping) (el : Element) : string :=
  let cls := findtext_default el "class" "" in
  let cat := findtext_default el "category" "" in
  let pkg := findtext_default el "package" "" in
  let ver := findtext_default el "version" "" in
  if bool_decide
       (cls ∈ default [] (default ∅ (default ∅ (_excludes self !! cat) !! pkg) !! ver))
  then ""
  else default "" (_class_mapping self !! cls).

(** ** Result *)

Record Result : Type := {
  _el : Element;
  _class_mapper : ClassMapping
}.

(** [Result.__getattr__]: any attribute other than the two fields and the
    two properties is looked up in the element. *)
Definition getattr (r : Result) (key : string) : string :=
  or_empty (findtext (_el r) key).

Definition category (r : Result) : string := getattr r "category".
Definition package (r : Result) : string := getattr r "package".
Definition version (r : Result) : string := getattr r "version".
Definition class (r : Result) : string := getattr r "class".

Definition css_class (r : Result) : string :=
  ClassMapping_map (_class_mapper r) (_el r).

Definition verbose (r : Result) : bool :=
  bool_decide (css_class r = "verbose").

(** A tuple of strings. *)
Abbreviation GroupKey := (list string) (only parsing).

Definition result_sort_key (r : Result) : list string :=
  [category r; package r; version r; class r].

(** [not s] for a string. *)
Definition is_empty (s : string) : bool := bool_decide (s = "").

(** ** Grouping *)

(** The key [split_result_group] pairs a record with. *)
Definition split_key (r : Result) : GroupKey :=
  if is_empty (category r) then []
  else if is_empty (package r) then [category r]
  else if is_empty (version r) then [category r; package r]
  else [category r; package r; version r].

Definition split_result_group (it : list Result) : list (GroupKey * Result) :=
  (λ r, (split_key r, r)) <$> it.

(** The loop of [group_results], with its two variables as arguments; the
    result is the list of the pairs it yields. *)
Fixpoint group_results_loop (level : nat) (prev_group : GroupKey)
    (prev_l : list Result) (it : list (GroupKey * Result))
  : list (GroupKey * list Result) :=
  match it with
  | [] => [(prev_group, prev_l)]
  | (g, r) :: rest =>
      if bool_decide (take level g ≠ prev_group) then
        (match prev_l with
         | [] => []
         | _ :: _ => [(prev_group, prev_l)]
         end)
        ++ group_results_loop level (take level g) [r] rest
      else group_results_loop level prev_group (prev_l ++ [r]) rest
  end.

Definition group_results (it : list Result) (level : nat)
  : list (GroupKey * list Result) :=
  group_results_loop level [] [] (split_result_group it).

(** What [deep_group] yields: a record, or a pair of a key and the nested
    generator, given here by the nodes it yields. *)
#[warnings="-register-all"]
Inductive GroupNode : Type :=
| Leaf (r : Result)
| Group (g : GroupKey) (sub : list GroupNode).

(** [deep_group] calls itself with [level + 1] until [level > 3]; [depth]
    is the number of levels that remain, [4 - level]. *)
Fixpoint deep_group_from (depth : nat) (it : list Result) (level : nat)
  : list GroupNode :=
  match depth with
  | O => '(_, r) ← group_results it level; Leaf <$> r
  | S depth' =>
      (λ gr : GroupKey * list Result,
         Group gr.1 (deep_group_from depth' gr.2 (S level)))
        <$> group_results it level
  end.

Definition deep_group (it : list Result) (level : nat) : list GroupNode :=
  deep_group_from (4 - level) it level.

(** The records of a tree, from left to right. *)
Fixpoint leaves (n : GroupNode) : list Result :=
  match n with
  | Leaf r => [r]
  | Group _ sub => concat (map leaves sub)
  end.

(** ** The world outside the program *)

(** A [datetime], given by its POSIX timestamp; the model counts whole
    seconds. *)
Record datetime : Type := utcfromtimestamp { timestamp : Z }.

(** The files and library calls the program depends on. *)
Record World : Type := {
  (** [lxml.etree.parse(path).getroot()] *)
  parse : string → result Element;
  (** [lxml.etree.parse(sys.stdin).getroot()] *)
  parse_stdin : result Element;
  (** [os.stat(path).st_mtime], in whole seconds *)
  st_mtime : string → result Z;
  (** [datetime.datetime.strptime(s, '%Y-%m-%d %H:%M:%S')] *)
  strptime : string → result datetime
}.

(** ** Reading the records *)

(** The inner loop of [get_results] over the children of one document. *)
Fixpoint get_results_of (mapper : ClassMapping) (verbose_flag : bool)
    (pkg_filter : Result → result bool) (checks : list Element)
  : result (list Result) :=
  match checks with
  | [] => Ok []
  | el :: rest =>
      let r := {| _el := el; _class_mapper := mapper |} in
      if verbose r && negb verbose_flag
      then get_results_of mapper verbose_flag pkg_filter rest
      else
        keep ← pkg_filter r;
        if negb keep
        then get_results_of mapper verbose_flag pkg_filter rest
        else rs ← get_results_of mapper verbose_flag pkg_filter rest; Ok (r :: rs)
  end.

Fixpoint get_results_from (w : World) (mapper : ClassMapping)
    (verbose_flag : bool) (pkg_filter : Result → result bool)
    (input_paths : list string) : result (list Result) :=
  match input_paths with
  | [] => Ok []
  | input_path :: rest =>
      checks ← (if bool_decide (input_path = "-") then parse_stdin w
                else parse w input_path);
      rs ← get_results_of mapper verbose_flag pkg_filter (children checks);
      rs' ← get_results_from w mapper verbose_flag pkg_filter rest;
      Ok (rs ++ rs')
  end.

Definition get_results (w : World) (input_paths : list string)
    (class_mapping : gmap string string)
    (excludes : gmap string (gmap string (gmap string (list string))))
    (verbose_flag : bool) (pkg_filter : Result → result bool)
  : result (list Result) :=
  let mapper := {| _class_mapping := class_mapping; _excludes := excludes |} in
  get_results_from w mapper verbose_flag pkg_filter input_paths.

(** ** The severity index *)

(** [out[k].add(g)] on a [defaultdict(set)]. *)
Definition add_to (out : gmap string (gset (list string))) (k : string)
    (g : GroupKey) : gmap string (gset (list string)) :=
  <[k := default ∅ (out !! k) ∪ {[g]}]> out.

(** The step of the inner loop of [find_of_class]. *)
Definition index_step (cls : string) (g : GroupKey)
    (out : gmap string (gset (list string))) (x : Result)
  : gmap string (gset (list string)) :=
  if bool_decide (css_class x = cls) then add_to out (class x) g else out.

(** The dictionary [find_of_class] has built when its loops end. *)
Definition find_of_class_out (it : list Result) (cls : string) (level : nat)
  : gmap string (gset (list string)) :=
  foldl (λ out (gr : GroupKey * list Result),
           foldl (index_step cls gr.1) out gr.2)
        ∅ (group_results it level).

(** Items of a dictionary are compared as pairs; its keys differ pairwise,
    so the comparison is settled by the keys and never reaches the sets. *)
Definition item_le (a b : string * gset (list string)) : Prop := lexico_le a.1 b.1.

#[global] Instance item_le_dec : RelDecision item_le.
Proof. intros a b. unfold item_le, lexico_le. apply _. Defined.

(** [find_of_class], for a given order [items] in which the dictionary
    hands out its items and a given order [iter] in which a set hands out
    its elements. *)
Definition find_of_class_with
    (items : gmap string (gset (list string)) → list (string * gset (list string)))
    (iter : gset (list string) → list (list string))
    (it : list Result) (cls : string) (level : nat)
  : list (string * list GroupKey) :=
  (λ kv : string * gset (list string), (kv.1, sorted (iter kv.2)))
    <$> sorted_by item_le (items (find_of_class_out it cls level)).

Definition find_of_class (it : list Result) (cls : string) (level : nat)
  : list (string * list GroupKey) :=
  find_of_class_with map_to_list elements it cls level.

(** ** The timestamp *)

Definition get_result_timestamp (w : World) (paths : list string)
  : result (option datetime) :=
  match paths with
  | [] => Ok None
  | p :: _ => mtime ← st_mtime w p; Ok (Some (utcfromtimestamp mtime))
  end.

(** ** Maintainers and projects *)

(** [format_maint]: calling [.replace] on [None] raises. *)
Definition format_maint (el : Element) : result string :=
  match findtext el "email" with
  | None => Raise AttributeError
  | Some email => Ok (replace "@gentoo.org" "@g.o" email)
  end.

Record ProjectGetter : Type := { projects : Element }.

(** [ProjectGetter.__getitem__], consumed to its end.  The generator calls
    itself for every inheriting subproject; [limit] is the number of
    nested calls the interpreter still allows, and running out of them
    is Python's [RecursionError]. *)
Fixpoint ProjectGetter_getitem (limit : nat) (self : ProjectGetter)
    (k : option string) : result (list (option string)) :=
  match limit with
  | O => Raise RecursionError
  | S limit' =>
      yielded ← map_r (λ x,
        if bool_decide (findtext x "email" = k) then
          inherited ← map_r (λ sp,
            if bool_decide (get sp "inherit-members" = Some "1")
            then ProjectGetter_getitem limit' self (get sp "ref")
            else Ok []) (findall x "subproject");
          Ok (((λ m, findtext m "email") <$> findall x "member")
                ++ concat inherited)
        else Ok []) (findall (projects self) "project");
      Ok (concat yielded)
  end.

(** [find_projects_for_maintainer], consumed to its end. *)
Definition find_projects_for_maintainer (limit : nat) (self : ProjectGetter)
    (m : string) : result (list (option string)) :=
  yielded ← map_r (λ x,
    members ← ProjectGetter_getitem limit self (findtext x "email");
    Ok (if bool_decide (Some m ∈ members) then [findtext x "email"] else []))
    (findall (projects self) "project");
  Ok (concat yielded).

Record MaintainerGetter : Type := { repo : string }.

Definition MaintainerGetter_getitem (w : World) (self : MaintainerGetter)
    (k : string) : result (list string) :=
  let p := path_join (repo self) [k; "metadata.xml"] in
  match parse w p with
  | Raise OSError => Ok []
  | Raise e => Raise e
  | Ok metadata =>
      maints ← map_r format_maint (findall metadata "maintainer");
      Ok (match maints with
          | [] => ["maintainer-needed"]
          | _ :: _ => maints
          end)
  end.

(** ** The filters and the timestamp of [main] *)

Record Args : Type := {
  args_maintainer : option string;
  args_projects : bool;
  args_pkg : option string;
  args_repo : string;
  args_timestamp : option string;
  args_verbose : bool;
  args_files : list string
}.

(** The rewriting of [args.maintainer] at the start of the filter set-up. *)
Definition normalize_maintainer (m : string) : string :=
  if negb (contains "@" m) then m +:+ "@gentoo.org"
  else if endswith m "@g.o" then replace "@g.o" "@gentoo.org" m
  else m.

(** The set [match], from the rewritten [args.maintainer]. *)
Definition main_match (limit : nat) (w : World) (args : Args)
    (maintainer : string) : result (gset string) :=
  if bool_decide (maintainer ≠ "maintainer-needed@gentoo.org") then
    found ← (if args_projects args then
               root ← parse w (path_join (args_repo args)
                                 ["metadata"; "projects.xml"]);
               find_projects_for_maintainer limit {| projects := root |}
                 maintainer
             else Ok []);
    names ← map_r (λ x : option string,
                     match x with
                     | Some s => Ok (replace "@gentoo.org" "@g.o" s)
                     | None => Raise AttributeError
                     end) (Some maintainer :: found);
    Ok (list_to_set names)
  else Ok {[ "maintainer-needed" ]}.

(** [bool(s.intersection(l))]. *)
Definition intersects (s : gset string) (l : list string) : bool :=
  bool_decide (Exists (λ x, x ∈ s) l).

(** The [maint_filter] that [main] builds once [match] is known. *)
Definition maint_filter_of (w : World) (maints : MaintainerGetter)
    (match_ : gset string) (x : Result) : result bool :=
  ms ← MaintainerGetter_getitem w maints (join "/" [category x; package x]);
  Ok (intersects match_ ms).

(** [bool(s)] for a string or [None]. *)
Definition truthy (s : option string) : bool :=
  match s with
  | None => false
  | Some s => negb (is_empty s)
  end.

Definition main_maint_filter (limit : nat) (w : World) (args : Args)
  : result (Result → result bool) :=
  if truthy (args_maintainer args) then
    match_ ← main_match limit w args
               (normalize_maintainer (or_empty (args_maintainer args)));
    Ok (maint_filter_of w {| repo := args_repo args |} match_)
  else Ok (λ _, Ok true).

Definition main_pkg_filter (args : Args) : Result → bool :=
  if truthy (args_pkg args) then
    let packages : gset string :=
      list_to_set (split "," (or_empty (args_pkg args))) in
    λ x, intersects packages [join "/" [category x; package x]]
  else λ _, true.

(** [maint_filter(x) and pkg_filter(x)]. *)
Definition combined_filter (maint_filter : Result → result bool)
    (pkg_filter : Result → bool) (x : Result) : result bool :=
  keep ← maint_filter x;
  Ok (keep && pkg_filter x).

(** [sorted(l, key=result_sort_key)]. *)
Definition key_le (a b : Result) : Prop :=
  lexico_le (result_sort_key a) (result_sort_key b).

#[global] Instance key_le_dec : RelDecision key_le.
Proof. intros a b. unfold key_le, lexico_le. apply _. Defined.

(** The list [results] of [main]. *)
Definition main_results (limit : nat) (w : World) (args : Args)
    (class_mapping : gmap string string)
    (excludes : gmap string (gmap string (gmap string (list string))))
  : result (list Result) :=
  maint_filter ← main_maint_filter limit w args;
  rs ← get_results w (args_files args) class_mapping excludes
         (args_verbose args)
         (combined_filter maint_filter (main_pkg_filter args));
  Ok (sorted_by key_le rs).

(** The value [ts] of [main]. *)
Definition main_ts (w : World) (args : Args) : result (option datetime) :=
  match args_timestamp args with
  | Some s => ts ← strptime w s; Ok (Some ts)
  | None => get_result_timestamp w (args_files args)
  end.

(** No two neighbours of the list are equal. *)
Fixpoint adjacent_differ {A} (l : list A) : Prop :=
  match l with
  | x :: (y :: _) as l' => x ≠ y ∧ adjacent_differ l'
  | _ => True
  end.

(** [[x for x in l if p(x)]] where [p] may raise. *)
Fixpoint filter_r {A} (p : A → result bool) (l : list A) : result (list A) :=
  match l with
  | [] => Ok []
  | x :: l' =>
      keep ← p x;
      if negb keep then filter_r p l'
      else xs ← filter_r p l'; Ok (x :: xs)
  end.

(** ** Inheritance between projects *)

(** Project [a] takes over the members of project [b]: a [project]
    element with identity [a] has a [subproject] element that refers to
    [b] and sets [inherit-members] to 1. *)
Definition inherits (self : ProjectGetter) (a b : option string) : Prop :=
  ∃ x sp, x ∈ findall (projects self) "project" ∧ findtext x "email" = a
          ∧ sp ∈ findall x "subproject"
          ∧ get sp "inherit-members" = Some "1" ∧ get sp "ref" = b.

(** The projects a [project] element inherits from. *)
Definition inherited_refs (x : Element) : list (option string) :=
  (λ sp, get sp "ref")
    <$> filter (λ sp, get sp "inherit-members" = Some "1")
               (findall x "subproject").

(** The inheritance has no cycle: every project has a rank above the
    ranks of the projects it inherits from. *)
Definition ranked (self : ProjectGetter) (rank : option string → nat) : Prop :=
  Forall (λ x, Forall (λ ref, rank ref < rank (findtext x "email"))
                      (inherited_refs x))
         (findall (projects self) "project").

(** What one [project] element with the asked identity contributes to a
    call of [ProjectGetter.__getitem__] that may nest [limit] calls. *)
Definition yielded_by (limit : nat) (self : ProjectGetter) (x : Element)
  : result (list (option string)) :=
  inherited ← map_r (λ sp,
    if bool_decide (get sp "inherit-members" = Some "1")
    then ProjectGetter_getitem limit self (get sp "ref")
    else Ok []) (findall x "subproject");
  Ok (((λ m, findtext m "email") <$> findall x "member") ++ concat inherited).

(** The entry of the record [x] in the index of maintainers. *)
Definition entry_of (w : World) (args : Args) (x : Result)
  : result (list string) :=
  MaintainerGetter_getitem w {| repo := args_repo args |}
    (join "/" [category x; package x]).

(** The answer of the maintainer filter of [main] for the record [x]. *)
Definition maint_filter_answer (limit : nat) (w : World) (args : Args)
    (x : Result) : result bool :=
  maint_filter ← main_maint_filter limit w args; maint_filter x.

(** ** Notions of the specification *)

(** Class [cls] is a member of [excludes[cat][pkg][ver]]: all three levels
    are present and the list at the end names the class. *)
Definition excluded (self : ClassMapping) (cls cat pkg ver : string) : Prop :=
  ∃ pkgs vers classes,
    _excludes self !! cat = Some pkgs ∧ pkgs !! pkg = Some vers
    ∧ vers !! ver = Some classes ∧ cls ∈ classes.

(** A way to hand out the items of every dictionary. *)
Definition enumerates_items
    (items : gmap string (gset (list string))
             → list (string * gset (list string))) : Prop :=
  ∀ m, items m ≡ₚ map_to_list m.

(** A way to hand out the elements of every set. *)
Definition enumerates_elements
    (iter : gset (list string) → list (list string)) : Prop :=
  ∀ s, iter s ≡ₚ elements s.

(** The earliest of the modification times of [paths]. *)
Fixpoint earliest_mtime (w : World) (paths : list string) : result (option Z) :=
  match paths with
  | [] => Ok None
  | p :: rest =>
      t ← st_mtime w p;
      e ← earliest_mtime w rest;
      Ok (Some (match e with
                | None => t
                | Some t' => Z.min t t'
                end))
  end.

(** ** Sample data *)

(** A [result] element of a pkgcheck report. *)
Definition result_element (cat pkg ver cls : string) : Element :=
  Elem "result" [] None
    [Elem "category" [] (Some cat) []; Elem "package" [] (Some pkg) [];
     Elem "version" [] (Some ver) []; Elem "class" [] (Some cls) []].

Definition sample_mapping : gmap string string :=
  {[ "X" := "err"; "Y" := "warn"; "V" := "verbose" ]}.

Definition sample_rules : ClassMapping :=
  {| _class_mapping := sample_mapping; _excludes := ∅ |}.

Definition sample_result (cat pkg ver cls : string) : Result :=
  {| _el := result_element cat pkg ver cls; _class_mapper := sample_rules |}.

(** Three records in the order [main] sorts them into. *)
Definition sample_results : list Result :=
  [sample_result "dev-libs" "bar" "1.0" "X";
   sample_result "dev-libs" "foo" "1.0" "X";
   sample_result "dev-libs" "foo" "2.0" "Y"].

(** A [metadata.xml] that names the maintainers [emails]. *)
Definition metadata_of (emails : list string) : Element :=
  Elem "pkgmetadata" [] None
    ((λ e, Elem "maintainer" [] None [Elem "email" [] (Some e) []]) <$> emails).

(** A [project] element of [projects.xml]. *)
Definition project_of (email : string) (members : list string)
    (inherited : list string) : Element :=
  Elem "project" [] None
    (Elem "email" [] (Some email) []
     :: ((λ m, Elem "member" [] None [Elem "email" [] (Some m) []]) <$> members)
     ++ ((λ r, Elem "subproject" [("ref", r); ("inherit-members", "1")] None [])
           <$> inherited)).

(** Two projects that inherit from each other. *)
Definition cyclic_projects : ProjectGetter :=
  {| projects := Elem "projects" [] None
       [project_of "p1@gentoo.org" ["dev@gentoo.org"] ["p2@gentoo.org"];
        project_of "p2@gentoo.org" [] ["p1@gentoo.org"]] |}.

(** The same projects when only the second inherits from the first. *)
Definition acyclic_projects : ProjectGetter :=
  {| projects := Elem "projects" [] None
       [project_of "p1@gentoo.org" ["dev@gentoo.org"] [];
        project_of "p2@gentoo.org" [] ["p1@gentoo.org"]] |}.

Definition acyclic_rank (k : option string) : nat :=
  if bool_decide (k = Some "p2@gentoo.org") then 1 else 0.

(** A report of four records, one of them of a verbose class. *)
Definition sample_report : Element :=
  Elem "checks" [] None
    [result_element "dev-libs" "foo" "1.0" "X";
     result_element "dev-libs" "foo" "2.0" "V";
     result_element "dev-libs" "bar" "1.0" "X";
     result_element "dev-libs" "baz" "1.0" "Y"].

(** A repository in which [dev-libs/foo] names the sentinel and a
    developer as maintainers, [dev-libs/bar] names no maintainer,
    [dev-libs/baz] has no metadata, and a project carries the identity of
    the sentinel; and two reports, the second older than the first. *)
Definition sample_world : World := {|
  parse p :=
    if bool_decide (p = "/usr/portage/dev-libs/foo/metadata.xml")
    then Ok (metadata_of ["maintainer-needed"; "dev@gentoo.org"])
    else if bool_decide (p = "/usr/portage/dev-libs/bar/metadata.xml")
    then Ok (metadata_of [])
    else if bool_decide (p = "/usr/portage/metadata/projects.xml")
    then Ok (Elem "projects" [] None
               [project_of "maintainer-needed" ["nobody@gentoo.org"] []])
    else if bool_decide (p = "first.xml") then Ok sample_report
    else if bool_decide (p = "second.xml") then Ok (Elem "checks" [] None [])
    else Raise OSError;
  parse_stdin := Raise OSError;
  st_mtime p :=
    if bool_decide (p = "first.xml") then Ok 200%Z
    else if bool_decide (p = "second.xml") then Ok 100%Z
    else Raise OSError;
  strptime _ := Raise ValueError
|}.

Definition sample_args (maintainer : option string) (with_projects : bool)
  : Args := {|
  args_maintainer := maintainer;
  args_projects := with_projects;
  args_pkg := None;
  args_repo := "/usr/portage";
  args_timestamp := None;
  args_verbose := false;
  args_files := ["first.xml"; "second.xml"]
|}.

(** The records of the sample report that are read without [--verbose]. *)
Definition sample_read : list Result :=
  [sample_result "dev-libs" "foo" "1.0" "X";
   sample_result "dev-libs" "bar" "1.0" "X";
   sample_result "dev-libs" "baz" "1.0" "Y"].

(** ** The shape of the grouping tree *)

(** The key a node of the tree is filed under: the key of a group, and
    for a record the key [split_result_group] gives it. *)
Definition node_key (n : GroupNode) : GroupKey :=
  match n with
  | Leaf r => split_key r
  | Group g _ => g
  end.

(** A node lies [depth] levels of groups above the records. *)
#[warnings="-register-all"]
Inductive has_depth : nat → GroupNode → Prop :=
| has_depth_leaf (r : Result) : has_depth 0 (Leaf r)
| has_depth_group (depth : nat) (g : GroupKey) (sub : list GroupNode) :
    Forall (has_depth depth) sub → has_depth (S depth) (Group g sub).

(** The keys below a group made at depth [level] extend the key of the
    group: cut to [level] they are that key. *)
#[warnings="-register-all"]
Inductive keys_nest : nat → GroupNode → Prop :=
| keys_nest_leaf (level : nat) (r : Result) : keys_nest level (Leaf r)
| keys_nest_group (level : nat) (g : GroupKey) (sub : list GroupNode) :
    Forall (λ c, take level (node_key c) = g) sub →
    Forall (keys_nest (S level)) sub →
    keys_nest level (Group g sub).

(** ** [xml2html.py]

    The older script shares [split_result_group], [group_results],
    [deep_group] and [get_result_timestamp] with [pkgcheck2html.py].  Its
    [Result] holds the element only; its records are given here by the
    same record type, of which it never reads the mapper. *)

Module xml2html.

(** The table [class_mapping] of the script. *)
Definition class_mapping : gmap string string :=
  list_to_map
    [("NonsolvableDeps", "err");
     ("IUSEMetadataReport", "err");
     ("LicenseMetadataReport", "err");
     ("MissingManifest", "err");
     ("VisibilityReport", "err");
     ("UnknownManifest", "err");
     ("MetadataError", "err");
     ("DroppedKeywordsReport", "warn");
     ("TreeVulnerabilitiesReport", "warn");
     ("DescriptionReport", "warn");
     ("UnusedLocalFlagsReport", "err");
     ("CategoryMetadataXmlCheck", "warn");
     ("PackageMetadataXmlCheck", "warn");
     ("PkgDirReport", "warn");
     ("UnusedGlobalFlagsResult", "warn");
     ("NonExistentDeps", "warn")].

(** [Result.css_class]. *)
Definition css_class (r : Result) : string :=
  default "" (class_mapping !! getattr r "class").

Definition result_sort_key (r : Result) : list string :=
  [category r; package r; version r; class r; getattr r "msg"].

(** [sorted(results, key=result_sort_key)] of the script. *)
Definition msg_key_le (a b : Result) : Prop :=
  lexico_le (result_sort_key a) (result_sort_key b).

#[global] Instance msg_key_le_dec : RelDecision msg_key_le.
Proof. intros a b. unfold msg_key_le, lexico_le. apply _. Defined.

(** The records of the script seen as records of [pkgcheck2html.py]: the
    table as mapping and no excludes. *)
Definition rules : ClassMapping :=
  {| _class_mapping := class_mapping; _excludes := ∅ |}.

(** [get_results]: every child of every document, in order. *)
Fixpoint get_results (w : World) (input_paths : list string)
  : result (list Result) :=
  match input_paths with
  | [] => Ok []
  | input_path :: rest =>
      checks ← parse w input_path;
      rs ← get_results w rest;
      Ok (((λ el, {| _el := el; _class_mapper := rules |}) <$> children checks)
            ++ rs)
  end.

(** [find_of_class]: the key of every run that holds a record of severity
    [cls], once for the run. *)
Definition find_of_class (it : list Result) (cls : string) (level : nat)
  : list GroupKey :=
  gr ← group_results it level;
  if bool_decide (Exists (λ x, css_class x = cls) gr.2) then [gr.1] else [].

(** What writing the list of broken packages comes to: all lines written,
    or a [TypeError] after the lines written so far. *)
Inductive borked : Type :=
| Written (lines : list string)
| TypeError (lines : list string).

(** The line feed. *)
Definition nl : string := String "010" "".

(** ['output.html#%s/%s\n' % t]: the tuple has to hold two strings. *)
Definition borked_line (t : list string) : option string :=
  match t with
  | [a; b] => Some ("output.html#" +:+ a +:+ "/" +:+ b +:+ nl)
  | _ => None
  end.

(** The loop of [main] that writes [borked.list], over the keys that
    [find_of_class] yields. *)
Fixpoint write_borked (written : list string) (keys : list GroupKey) : borked :=
  match keys with
  | [] => Written written
  | g :: rest =>
      match borked_line (take 2 g) with
      | Some line => write_borked (written ++ [line]) rest
      | None => TypeError written
      end
  end.

Definition main_borked (results : list Result) : borked :=
  write_borked [] (find_of_class results "err" 2).

End xml2html.

(** ** Reading the input files *)

(** What [get_results] parses for a path. *)
Definition read_input (w : World) (input_path : string) : result Element :=
  if bool_decide (input_path = "-") then parse_stdin w else parse w input_path.

(** ** Members of projects *)

(** [m] is the address of a [member] element of a [project] element with
    identity [k]. *)
Definition direct_member (self : ProjectGetter) (k m : option string) : Prop :=
  ∃ x, x ∈ findall (projects self) "project" ∧ findtext x "email" = k
       ∧ m ∈ (λ e, findtext e "email") <$> findall x "member".

(** ** More sample data *)

(** The sample records as [xml2html.py] reads them. *)
Definition xml2html_sample : list Result :=
  [{| _el := result_element "dev-libs" "bar" "1.0" "MissingManifest";
      _class_mapper := xml2html.rules |};
   {| _el := result_element "dev-libs" "foo" "1.0" "MissingManifest";
      _class_mapper := xml2html.rules |};
   {| _el := result_element "dev-libs" "foo" "2.0" "PkgDirReport";
      _class_mapper := xml2html.rules |}].

(** * Properties *)

(** ** Grouping is lossless *)

Section grouping.

Implicit Types (it : list Result) (level : nat) (g : GroupKey).

Lemma group_results_loop_concat level g (l : list Result)
    (it : list (GroupKey * Result)) :
  concat ((λ gr, gr.2) <$> group_results_loop level g l it) = l ++ (snd <$> it).
Proof.
  revert g l. induction it as [|[g' r] rest IH]; intros g l; simpl.
  - by rewrite !app_nil_r.
  - case_bool_decide.
    + rewrite fmap_app, concat_app, IH. destruct l; simpl; [done|].
      by rewrite app_nil_r.
    + rewrite IH. by rewrite <- app_assoc.
Qed.

Lemma split_result_group_snd it : snd <$> split_result_group it = it.
Proof.
  unfold split_result_group.
  induction it as [|r it IH]; simpl; [done|]. by f_equal.
Qed.

Lemma group_results_concat it level :
  concat ((λ gr, gr.2) <$> group_results it level) = it.
Proof.
  unfold group_results.
  by rewrite group_results_loop_concat, split_result_group_snd.
Qed.

Lemma leaves_of_records (grs : list (GroupKey * list Result)) :
  concat (leaves <$> (grs ≫= λ '(_, r), Leaf <$> r))
  = concat ((λ gr, gr.2) <$> grs).
Proof.
  induction grs as [|[g r] grs IH]; [done|].
  rewrite bind_cons, fmap_app, concat_app, IH, fmap_cons, concat_cons.
  f_equal. simpl. clear. induction r as [|x r IH]; simpl; [done|]. by f_equal.
Qed.

Lemma deep_group_from_leaves depth it level :
  concat (leaves <$> deep_group_from depth it level) = it.
Proof.
  revert it level. induction depth as [|depth IH]; intros it level; simpl.
  - by rewrite leaves_of_records, group_results_concat.
  - rewrite <- (group_results_concat it level) at 2.
    induction (group_results it level) as [|[g r] grs IHg]; [done|].
    rewrite !fmap_cons, !concat_cons, IHg. f_equal. apply IH.
Qed.

(** [deep_group] as the source writes it: one more level of groups
    until [level > 3], the records themselves from there on. *)
Lemma deep_group_unfold it level :
  deep_group it level =
  if bool_decide (3 < level)
  then '(_, r) ← group_results it level; Leaf <$> r
  else (λ gr : GroupKey * list Result,
          Group gr.1 (deep_group gr.2 (S level))) <$> group_results it level.
Proof.
  unfold deep_group.
  destruct level as [|[|[|[|n]]]]; case_bool_decide; try lia; done.
Qed.

(** Every record of a run has the key of the run. *)
Lemma group_results_loop_keys level g (l : list Result)
    (it : list (GroupKey * Result)) :
  Forall (λ r, take level (split_key r) = g) l →
  Forall (λ gr, gr.1 = split_key gr.2) it →
  Forall (λ gr, Forall (λ r, take level (split_key r) = gr.1) gr.2)
         (group_results_loop level g l it).
Proof.
  revert g l. induction it as [|[g' r] rest IH]; intros g l Hl Hit; simpl.
  - by constructor.
  - inv Hit. simpl in *. subst g'. case_bool_decide as Hg.
    + apply Forall_app. split.
      * destruct l; [constructor | by apply Forall_singleton].
      * apply IH; [by apply Forall_singleton | done].
    + apply IH; [|done]. apply Forall_app. split; [done|].
      apply Forall_singleton.
      by destruct (decide (take level (split_key r) = g)).
Qed.

Lemma group_results_keys it level :
  Forall (λ gr, Forall (λ r, take level (split_key r) = gr.1) gr.2)
         (group_results it level).
Proof.
  apply group_results_loop_keys; [constructor|].
  unfold split_result_group. induction it; by constructor.
Qed.

(** A run that has begun is the first one to be yielded. *)
Lemma group_results_loop_head level g (l : list Result)
    (it : list (GroupKey * Result)) :
  l ≠ [] → head ((λ gr, gr.1) <$> group_results_loop level g l it) = Some g.
Proof.
  revert l. induction it as [|[g' r] rest IH]; intros l Hl; simpl; [done|].
  case_bool_decide.
  - by destruct l.
  - apply IH. by destruct l.
Qed.

Lemma adjacent_differ_cons {A} (x : A) (l : list A) :
  (∀ y, head l = Some y → x ≠ y) → adjacent_differ l →
  adjacent_differ (x :: l).
Proof. destruct l; simpl; naive_solver. Qed.

(** Two runs that follow each other have different keys. *)
Lemma group_results_loop_adjacent level g (l : list Result)
    (it : list (GroupKey * Result)) :
  adjacent_differ ((λ gr, gr.1) <$> group_results_loop level g l it).
Proof.
  revert g l. induction it as [|[g' r] rest IH]; intros g l; simpl; [done|].
  case_bool_decide as Hg; [|apply IH].
  destruct l as [|x l]; [apply IH|].
  change (adjacent_differ
            (g :: ((λ gr, gr.1) <$>
                     group_results_loop level (take level g') [r] rest))).
  apply adjacent_differ_cons; [|apply IH].
  intros y Hy. rewrite group_results_loop_head in Hy; [|done]. congruence.
Qed.

(** No run is empty, unless there is no record at all. *)
Lemma group_results_loop_nonempty level g (l : list Result)
    (it : list (GroupKey * Result)) :
  l ++ (snd <$> it) ≠ [] →
  Forall (λ gr, gr.2 ≠ []) (group_results_loop level g l it).
Proof.
  revert g l. induction it as [|[g' r] rest IH]; intros g l Hne; simpl.
  - rewrite app_nil_r in Hne. by apply Forall_singleton.
  - case_bool_decide.
    + apply Forall_app. split;
        [destruct l; [constructor | by apply Forall_singleton]|].
      by apply IH.
    + apply IH. by destruct l.
Qed.

End grouping.

(** ** Keys *)

Section keys.

Implicit Types (r : Result).

Lemma split_key_cases r :
  split_key r =
  if is_empty (category r) then []
  else if is_empty (package r) then [category r]
  else if is_empty (version r) then [category r; package r]
  else [category r; package r; version r].
Proof. reflexivity. Qed.

Lemma split_key_prefix r :
  split_key r `prefix_of` [category r; package r; version r].
Proof.
  unfold split_key.
  repeat case_match;
    [by exists [category r; package r; version r]
    |by exists [package r; version r]
    |by exists [version r]
    |by exists []].
Qed.

Lemma split_key_no_empty r : "" ∉ split_key r.
Proof.
  unfold split_key, is_empty.
  repeat case_bool_decide;
    repeat (apply not_elem_of_cons; split; [congruence|]);
    apply not_elem_of_nil.
Qed.

Lemma split_key_longest r (k : list string) :
  k `prefix_of` [category r; package r; version r] → "" ∉ k →
  k `prefix_of` split_key r.
Proof.
  intros [t Ht] Hk. unfold split_key, is_empty.
  destruct k as [|a [|b [|c [|d k]]]]; simpl in Ht; inversion Ht; subst;
    rewrite ?not_elem_of_cons in Hk; destruct_and?;
    repeat case_bool_decide; try congruence; by eexists.
Qed.

End keys.

(** ** Sorting *)

Section sorted_by.

Context {A : Type} (R : relation A) `{∀ x y, Decision (R x y)}.

Lemma insert_by_Permutation (x : A) (l : list A) : insert_by R x l ≡ₚ x :: l.
Proof.
  induction l as [|y l IH]; simpl; [done|].
  case_decide; [done|]. by rewrite IH, Permutation_swap.
Qed.

Lemma sorted_by_Permutation (l : list A) : sorted_by R l ≡ₚ l.
Proof.
  induction l as [|x l IH]; simpl; [done|].
  by rewrite insert_by_Permutation, IH.
Qed.

Lemma StronglySorted_insert_by `{!Total R, !Transitive R} (x : A) (l : list A) :
  StronglySorted R l → StronglySorted R (insert_by R x l).
Proof.
  induction 1 as [|y l Hs IH Hy]; simpl; [by repeat constructor|].
  case_decide as Hxy.
  - constructor; [by constructor|]. constructor; [done|].
    eapply Forall_impl; [exact Hy|]. intros z Hz. by trans y.
  - constructor; [done|]. rewrite insert_by_Permutation.
    constructor; [|done]. by destruct (total R x y).
Qed.

Lemma StronglySorted_sorted_by `{!Total R, !Transitive R} (l : list A) :
  StronglySorted R (sorted_by R l).
Proof.
  induction l as [|x l IH]; simpl; [constructor|].
  by apply StronglySorted_insert_by.
Qed.

(** Sorting is stable; in particular it leaves a sorted list as it is. *)
Lemma sorted_by_Sorted (l : list A) : Sorted R l → sorted_by R l = l.
Proof.
  induction 1 as [|x l Hs IH Hx]; simpl; [done|]. rewrite IH.
  destruct Hx as [|y l Hxy]; simpl; [done|]. by rewrite decide_True.
Qed.

End sorted_by.

Section order.

Context {A : Type} `{Lexico A, !StrictOrder (@lexico A _),
                     !TrichotomyT (@lexico A _)}.

#[global] Instance le_total : Total (@lexico_le A _).
Proof.
  intros x y. unfold lexico_le.
  destruct (trichotomyT lexico x y) as [[Hlt| ->]|Hgt].
  - left. intros Hyx. by apply (irreflexivity lexico x); trans y.
  - left. apply irreflexivity, _.
  - right. intros Hxy. by apply (irreflexivity lexico x); trans y.
Qed.

#[global] Instance le_trans : Transitive (@lexico_le A _).
Proof.
  intros x y z Hxy Hyz Hzx. unfold lexico_le in *.
  destruct (trichotomyT lexico x y) as [[Hlt| ->]|Hgt]; [|done..].
  apply Hyz. by trans x.
Qed.

#[global] Instance le_antisymm : AntiSymm (=) (@lexico_le A _).
Proof.
  intros x y Hxy Hyx. unfold lexico_le in *.
  by destruct (trichotomyT lexico x y) as [[Hlt| ->]|Hgt].
Qed.

Lemma sorted_Sorted (l : list A) : StronglySorted lexico_le (sorted l).
Proof. apply StronglySorted_sorted_by; apply _. Qed.

Lemma sorted_Permutation (l : list A) : sorted l ≡ₚ l.
Proof. apply sorted_by_Permutation. Qed.

(** The sorted list does not depend on the order of the input. *)
Lemma sorted_unique (l1 l2 : list A) : l1 ≡ₚ l2 → sorted l1 = sorted l2.
Proof.
  intros Hp. apply (StronglySorted_unique lexico_le); try apply sorted_Sorted.
  by rewrite !sorted_Permutation.
Qed.

(** Without repeated elements the sorted list increases strictly. *)
Lemma strictly_sorted (l : list A) :
  NoDup l → StronglySorted lexico_le l → StronglySorted lexico l.
Proof.
  induction 2 as [|x l Hs IH Hx]; [constructor|].
  inv H0. constructor; [by apply IH|].
  apply Forall_forall. intros y Hy.
  rewrite Forall_forall in Hx. specialize (Hx y Hy). unfold lexico_le in Hx.
  destruct (trichotomyT lexico x y) as [[Hlt| ->]|Hgt]; done.
Qed.

Lemma sorted_strictly (l : list A) : NoDup l → StronglySorted lexico (sorted l).
Proof.
  intros Hnd. apply strictly_sorted; [|apply sorted_Sorted].
  by rewrite sorted_Permutation.
Qed.

End order.

Lemma StronglySorted_lexico_NoDup {A} `{Lexico A, !StrictOrder (@lexico A _)}
    (l : list A) :
  StronglySorted lexico l → NoDup l.
Proof.
  induction 1 as [|x l _ IH Hx]; constructor; [|done].
  intros Hin. rewrite Forall_forall in Hx.
  by apply (irreflexivity lexico x), Hx.
Qed.

(** ** The severity index *)

Section index.

Implicit Types (it : list Result) (cls k : string) (level : nat)
  (g : GroupKey) (out : gmap string (gset (list string))).

Lemma elem_of_add_to out k' g' k g :
  g ∈ default ∅ (add_to out k' g' !! k)
  ↔ g ∈ default ∅ (out !! k) ∨ (k = k' ∧ g = g').
Proof.
  unfold add_to. destruct (decide (k' = k)) as [->|Hne].
  - rewrite lookup_insert_eq. simpl.
    rewrite elem_of_union, elem_of_singleton.
    split; [intros [?|?]; auto | intros [?|[_ ?]]; auto].
  - rewrite lookup_insert_ne by done.
    split; [auto | intros [?|[? _]]; [done|congruence]].
Qed.

Lemma elem_of_index_inner cls g' (l : list Result) out k g :
  g ∈ default ∅ (foldl (index_step cls g') out l !! k)
  ↔ g ∈ default ∅ (out !! k)
    ∨ (g = g' ∧ ∃ x, x ∈ l ∧ css_class x = cls ∧ class x = k).
Proof.
  revert out. induction l as [|x l IH]; intros out; simpl.
  - split; [by left|]. intros [?|(_ & x & Hx & _)]; [done|]. by inv Hx.
  - rewrite IH. unfold index_step. case_bool_decide as Hc.
    + rewrite elem_of_add_to. split.
      * intros [[?|[-> ->]]|(-> & y & ? & ? & ?)]; [by left|right..].
        -- split; [done|]. exists x. by rewrite elem_of_cons; auto.
        -- split; [done|]. exists y. by rewrite elem_of_cons; auto.
      * intros [?|(-> & y & Hy & ? & ?)]; [by left; left|].
        apply elem_of_cons in Hy as [->|Hy]; [by left; right|].
        right. split; [done|]. by exists y.
    + split.
      * intros [?|(-> & y & ? & ? & ?)]; [by left|right].
        split; [done|]. exists y. by rewrite elem_of_cons; auto.
      * intros [?|(-> & y & Hy & ? & ?)]; [by left|].
        apply elem_of_cons in Hy as [->|Hy]; [done|].
        right. split; [done|]. by exists y.
Qed.

Lemma elem_of_index_outer cls (grs : list (GroupKey * list Result)) out k g :
  g ∈ default ∅
        (foldl (λ out (gr : GroupKey * list Result),
                  foldl (index_step cls gr.1) out gr.2) out grs !! k)
  ↔ g ∈ default ∅ (out !! k)
    ∨ ∃ gr x, gr ∈ grs ∧ gr.1 = g ∧ x ∈ gr.2
              ∧ css_class x = cls ∧ class x = k.
Proof.
  revert out. induction grs as [|gr grs IH]; intros out; simpl.
  - split; [by left|]. intros [?|(gr & x & Hgr & _)]; [done|]. by inv Hgr.
  - rewrite IH, elem_of_index_inner. split.
    + intros [[?|(-> & x & ? & ? & ?)]|(gr' & x & ? & ? & ? & ? & ?)].
      * by left.
      * right. exists gr, x. by rewrite elem_of_cons; auto.
      * right. exists gr', x. by rewrite elem_of_cons; auto.
    + intros [?|(gr' & x & Hgr & ? & ? & ? & ?)]; [by left; left|].
      apply elem_of_cons in Hgr as [->|Hgr].
      * left; right. split; [done|]. by exists x.
      * right. by exists gr', x.
Qed.

Lemma elem_of_concat {B} (x : B) (ls : list (list B)) :
  x ∈ concat ls ↔ ∃ l, x ∈ l ∧ l ∈ ls.
Proof.
  induction ls as [|l' ls IH]; simpl.
  - split; [by intros ?%elem_of_nil | by intros (l & _ & ?%elem_of_nil)].
  - rewrite elem_of_app, IH. split.
    + intros [?|(l & ? & ?)]; [exists l' | exists l];
        by rewrite elem_of_cons; auto.
    + intros (l & ? & [->|?]%elem_of_cons); [by left|right; by exists l].
Qed.

(** Every record lies in a run that carries the record's key. *)
Lemma elem_of_group_results it level (x : Result) :
  x ∈ it ↔ ∃ gr, gr ∈ group_results it level ∧ x ∈ gr.2.
Proof.
  rewrite <- (group_results_concat it level) at 1.
  rewrite elem_of_concat. split.
  - intros (l & Hx & Hl). apply list_elem_of_fmap in Hl as (gr & -> & Hgr).
    by exists gr.
  - intros (gr & Hgr & Hx). exists gr.2. split; [done|].
    apply list_elem_of_fmap. by exists gr.
Qed.

(** What the dictionary of [find_of_class] holds under a class name:
    the keys, cut to [level], of the records of that class whose
    severity is [cls]. *)
Lemma elem_of_find_of_class_out it cls level k g :
  g ∈ default ∅ (find_of_class_out it cls level !! k)
  ↔ ∃ x, x ∈ it ∧ css_class x = cls ∧ class x = k
         ∧ take level (split_key x) = g.
Proof.
  unfold find_of_class_out.
  rewrite (elem_of_index_outer cls (group_results it level) ∅ k g).
  rewrite lookup_empty. simpl. split.
  - intros [Hg|(gr & x & Hgr & <- & Hx & ? & ?)]; [by apply not_elem_of_empty in Hg|].
    exists x. split; [apply (elem_of_group_results it level); by exists gr|].
    split_and!; [done..|].
    pose proof (group_results_keys it level) as Hk.
    rewrite Forall_forall in Hk. specialize (Hk gr Hgr).
    rewrite Forall_forall in Hk. by apply Hk.
  - intros (x & Hx & ? & ? & <-). right.
    apply (elem_of_group_results it level) in Hx as (gr & Hgr & Hx).
    exists gr, x. split_and!; [done| |done..].
    pose proof (group_results_keys it level) as Hk.
    rewrite Forall_forall in Hk. specialize (Hk gr Hgr).
    rewrite Forall_forall in Hk. symmetry. by apply Hk.
Qed.

End index.

Section index_sorted.

Implicit Types (it : list Result) (cls k : string) (level : nat)
  (m : gmap string (gset (list string))).

#[local] Instance item_le_total : Total item_le.
Proof. intros a b. apply (total (lexico_le (A:=string))). Qed.

#[local] Instance item_le_trans : Transitive item_le.
Proof. intros a b c. apply (transitivity (R:=lexico_le (A:=string))). Qed.

Lemma sorted_items_Sorted (l : list (string * gset (list string))) :
  StronglySorted item_le (sorted_by item_le l).
Proof. apply StronglySorted_sorted_by; apply _. Qed.

(** The items of a dictionary, sorted: the order in which the dictionary
    hands them out plays no role. *)
Lemma sorted_items_unique m (l : list (string * gset (list string))) :
  l ≡ₚ map_to_list m →
  sorted_by item_le l = sorted_by item_le (map_to_list m).
Proof.
  intros Hl. apply (StronglySorted_unique_strong item_le);
    try apply sorted_items_Sorted.
  - intros [k1 v1] [k2 v2] H1 H2 Hle1 Hle2.
    rewrite sorted_by_Permutation, Hl in H1.
    rewrite sorted_by_Permutation in H2.
    apply elem_of_map_to_list in H1, H2.
    assert (k1 = k2) as -> by (by apply (anti_symm lexico_le)).
    congruence.
  - by rewrite !sorted_by_Permutation.
Qed.

Lemma sorted_items_keys m :
  StronglySorted lexico ((sorted_by item_le (map_to_list m)).*1).
Proof.
  apply strictly_sorted.
  - rewrite sorted_by_Permutation. apply NoDup_fst_map_to_list.
  - apply (StronglySorted_fmap _ item_le); [done|apply sorted_items_Sorted].
Qed.

End index_sorted.

Lemma find_of_class_with_eq items iter it cls level :
  enumerates_items items → enumerates_elements iter →
  find_of_class_with items iter it cls level = find_of_class it cls level.
Proof.
  intros Hitems Hiter. unfold find_of_class, find_of_class_with.
  rewrite (sorted_items_unique _ _ (Hitems _)).
  apply list_fmap_ext. intros i [k s] _. simpl. f_equal.
  apply sorted_unique, Hiter.
Qed.

Lemma find_of_class_keys_sorted it cls level :
  StronglySorted lexico ((find_of_class it cls level).*1).
Proof.
  unfold find_of_class, find_of_class_with.
  rewrite <- list_fmap_compose.
  apply (sorted_items_keys (find_of_class_out it cls level)).
Qed.

Lemma find_of_class_groups_sorted it cls level :
  Forall (λ kv : string * list GroupKey, StronglySorted lexico kv.2)
         (find_of_class it cls level).
Proof.
  unfold find_of_class, find_of_class_with.
  apply Forall_fmap, Forall_forall. intros [k s] _. simpl.
  apply sorted_strictly, NoDup_elements.
Qed.

Lemma find_of_class_complete_at it cls level (r : Result) :
  r ∈ it → css_class r = cls →
  ∃ gs, (class r, gs) ∈ find_of_class it cls level
        ∧ take level (split_key r) ∈ gs.
Proof.
  intros Hr Hc.
  assert (take level (split_key r)
            ∈ default ∅ (find_of_class_out it cls level !! class r)) as Hg.
  { apply elem_of_find_of_class_out. by exists r. }
  destruct (find_of_class_out it cls level !! class r) as [s|] eqn:E;
    [|by apply not_elem_of_empty in Hg].
  exists (sorted (elements s)). split.
  - unfold find_of_class, find_of_class_with.
    apply list_elem_of_fmap. exists (class r, s). split; [done|].
    rewrite sorted_by_Permutation. by apply elem_of_map_to_list.
  - rewrite sorted_Permutation. by apply elem_of_elements.
Qed.

(** ** Reading the records *)

Section reading.

Implicit Types (mapper : ClassMapping) (pkg_filter : Result → result bool)
  (checks : list Element) (rs : list Result).

(** The verbose check comes first and does not ask the filter. *)
Lemma get_results_of_filter_r mapper verbose_flag pkg_filter checks :
  get_results_of mapper verbose_flag pkg_filter checks
  = filter_r pkg_filter
      (filter (λ r, ¬ (verbose r ∧ verbose_flag = false))
              ((λ el, Build_Result el mapper) <$> checks)).
Proof.
  induction checks as [|el rest IH]; [done|].
  cbn [get_results_of fmap list_fmap]. rewrite IH.
  destruct (verbose _) eqn:Hv, verbose_flag; simpl.
  - rewrite filter_cons_True by (rewrite Hv; intros [_ ?]; done). done.
  - rewrite filter_cons_False by (rewrite Hv; intros H; by apply H). done.
  - rewrite filter_cons_True by (rewrite Hv; intros [? _]; done). done.
  - rewrite filter_cons_True by (rewrite Hv; intros [? _]; done). done.
Qed.

Lemma filter_r_Ok {A} (p : A → result bool) (l l' : list A) :
  filter_r p l = Ok l' →
  ∀ x, x ∈ l' ↔ x ∈ l ∧ p x = Ok true.
Proof.
  revert l'. induction l as [|y l IH]; intros l' Hl; simpl in Hl.
  - inv Hl. intros x. split; [by intros ?%elem_of_nil|].
    by intros [?%elem_of_nil _].
  - destruct (p y) as [[]|] eqn:Hy; simpl in Hl; [| |done].
    + destruct (filter_r p l) as [l2|] eqn:E; simpl in Hl; [|done].
      inv Hl. intros x. rewrite !elem_of_cons, (IH l2 eq_refl). split.
      * intros [->|[? ?]]; auto.
      * intros [[->|?] ?]; auto.
    + intros x. rewrite (IH l' Hl), elem_of_cons. split.
      * intros [? ?]; auto.
      * intros [[->|?] ?]; [congruence|auto].
Qed.

Lemma get_results_of_Ok mapper verbose_flag pkg_filter checks rs :
  get_results_of mapper verbose_flag pkg_filter checks = Ok rs →
  Forall (λ r, (verbose_flag = false → css_class r ≠ "verbose")
               ∧ pkg_filter r = Ok true) rs.
Proof.
  rewrite get_results_of_filter_r. intros Hrs.
  apply Forall_forall. intros r Hr.
  apply (filter_r_Ok _ _ _ Hrs) in Hr as [Hr Hp]. split; [|done].
  apply list_elem_of_filter in Hr as [Hr _]. intros Hf Hc.
  apply Hr. split; [|done]. unfold verbose. by apply bool_decide_pack.
Qed.

Lemma get_results_from_Ok w mapper verbose_flag pkg_filter paths rs :
  get_results_from w mapper verbose_flag pkg_filter paths = Ok rs →
  Forall (λ r, (verbose_flag = false → css_class r ≠ "verbose")
               ∧ pkg_filter r = Ok true) rs.
Proof.
  revert rs. induction paths as [|p paths IH]; intros rs Hrs; simpl in Hrs.
  - inv Hrs. constructor.
  - destruct (if bool_decide (p = "-") then parse_stdin w else parse w p)
      as [root|]; simpl in Hrs; [|done].
    destruct (get_results_of _ _ _ _) as [rs1|] eqn:E1; simpl in Hrs; [|done].
    destruct (get_results_from _ _ _ _ _) as [rs2|]; simpl in Hrs; [|done].
    inv Hrs. apply Forall_app. split; [|by apply IH].
    by eapply get_results_of_Ok.
Qed.

End reading.

(** ** Strings *)

Section strings.

Lemma contains_at_cons (c : ascii) (s : string) :
  contains "@" (String c s) = bool_decide (c = "@"%char) || contains "@" s.
Proof.
  cbn [contains String.prefix].
  destruct (ascii_dec "@" c) as [<-|Hne].
  - rewrite bool_decide_true by done. by destruct s.
  - rewrite bool_decide_false by congruence. done.
Qed.

Lemma contains_at_app (a b : string) :
  contains "@" (a +:+ b) = contains "@" a || contains "@" b.
Proof.
  induction a as [|c a IH].
  - by destruct b.
  - change (String c a +:+ b) with (String c (a +:+ b)).
    by rewrite !contains_at_cons, IH, orb_assoc.
Qed.

(** Replacing by a text with an [@] keeps an [@] in the string. *)
Lemma contains_at_replace (old new s : string) :
  contains "@" new = true → contains "@" s = true →
  contains "@" (replace old new s) = true.
Proof.
  intros Hnew. unfold replace. induction s as [|c s IH]; [done|].
  intros Hs. cbn [replace_from]. destruct (String.prefix old (String c s)).
  - by rewrite contains_at_app, Hnew.
  - rewrite contains_at_cons in Hs |- *.
    destruct (bool_decide (c = "@"%char)); [done|]. by apply IH.
Qed.

Lemma contains_at_normalize (m : string) :
  contains "@" (normalize_maintainer m) = true.
Proof.
  unfold normalize_maintainer.
  destruct (contains "@" m) eqn:Hm; simpl.
  - destruct (endswith m "@g.o"); [|done]. by apply contains_at_replace.
  - by rewrite contains_at_app, orb_true_r.
Qed.

(** The maintainer that is asked for never becomes the sentinel. *)
Lemma format_normalize_not_sentinel (m : string) :
  replace "@gentoo.org" "@g.o" (normalize_maintainer m) ≠ "maintainer-needed".
Proof.
  intros Heq.
  pose proof (contains_at_replace "@gentoo.org" "@g.o" _ eq_refl
                (contains_at_normalize m)) as Hc.
  by rewrite Heq in Hc.
Qed.

End strings.

(** ** Maintainers *)

Section maintainers.

Implicit Types (w : World) (self : MaintainerGetter) (k : string).

Lemma map_r_nil {A B} (f : A → result B) : map_r f [] = Ok [].
Proof. done. Qed.

Lemma MaintainerGetter_getitem_OSError w self k :
  parse w (path_join (repo self) [k; "metadata.xml"]) = Raise OSError →
  MaintainerGetter_getitem w self k = Ok [].
Proof. unfold MaintainerGetter_getitem. by intros ->. Qed.

Lemma MaintainerGetter_getitem_no_maintainer w self k (metadata : Element) :
  parse w (path_join (repo self) [k; "metadata.xml"]) = Ok metadata →
  findall metadata "maintainer" = [] →
  MaintainerGetter_getitem w self k = Ok ["maintainer-needed"].
Proof. unfold MaintainerGetter_getitem. by intros -> ->. Qed.

Lemma intersects_singleton (x : string) (l : list string) :
  intersects {[x]} l = bool_decide (x ∈ l).
Proof.
  unfold intersects. apply bool_decide_ext. rewrite Exists_exists. split.
  - by intros (y & Hy & ->%elem_of_singleton).
  - intros Hx. exists x. by rewrite elem_of_singleton.
Qed.

Lemma intersects_sentinel_list (s : gset string) :
  intersects s ["maintainer-needed"] = bool_decide ("maintainer-needed" ∈ s).
Proof.
  unfold intersects. apply bool_decide_ext. rewrite Exists_exists. split.
  - by intros (y & ->%list_elem_of_singleton & ?).
  - intros Hx. exists "maintainer-needed". by rewrite list_elem_of_singleton.
Qed.

End maintainers.

(** ** Projects *)

Section projects.

Implicit Types (self : ProjectGetter) (k : option string) (limit : nat).

Lemma map_r_Ok_inv {A B} (f : A → result B) (l : list A) (ys : list B) :
  map_r f l = Ok ys → Forall2 (λ x y, f x = Ok y) l ys.
Proof.
  revert ys. induction l as [|x l IH]; intros ys Hys; simpl in Hys.
  - inv Hys. constructor.
  - destruct (f x) as [y|] eqn:Hx; simpl in Hys; [|done].
    destruct (map_r f l) as [ys'|]; simpl in Hys; [|done].
    inv Hys. constructor; [done|by apply IH].
Qed.

Lemma map_r_Ok_intro {A B} (f : A → result B) (l : list A) :
  Forall (λ x, ∃ y, f x = Ok y) l → ∃ ys, map_r f l = Ok ys.
Proof.
  induction 1 as [|x l [y Hy] _ [ys IH]]; simpl; [by eexists|].
  rewrite Hy. simpl. rewrite IH. simpl. by eexists.
Qed.

Lemma map_r_elem_of {A B} (f : A → result B) (l : list A) (ys : list B) x :
  map_r f l = Ok ys → x ∈ l → ∃ y, f x = Ok y ∧ y ∈ ys.
Proof.
  intros Hys%map_r_Ok_inv Hx.
  induction Hys as [|x' y l ys Hy _ IH]; [by apply elem_of_nil in Hx|].
  apply elem_of_cons in Hx as [->|Hx].
  - exists y. split; [done|]. by left.
  - destruct (IH Hx) as (y' & ? & ?). exists y'. split; [done|]. by right.
Qed.

Lemma ProjectGetter_getitem_S limit self k :
  ProjectGetter_getitem (S limit) self k =
  (yielded ← map_r (λ x,
     if bool_decide (findtext x "email" = k)
     then yielded_by limit self x else Ok [])
     (findall (projects self) "project");
   Ok (concat yielded)).
Proof. reflexivity. Qed.

Lemma yielded_by_members limit self x (ms : list (option string)) m :
  yielded_by limit self x = Ok ms →
  m ∈ (λ m, findtext m "email") <$> findall x "member" → m ∈ ms.
Proof.
  unfold yielded_by. intros Hms Hm.
  destruct (map_r _ _) as [inh|]; simpl in Hms; [|done].
  inv Hms. apply elem_of_app. by left.
Qed.

Lemma yielded_by_inherited limit self x (ms : list (option string)) sp :
  yielded_by limit self x = Ok ms →
  sp ∈ findall x "subproject" → get sp "inherit-members" = Some "1" →
  ∃ ms', ProjectGetter_getitem limit self (get sp "ref") = Ok ms'
         ∧ ms' ⊆ ms.
Proof.
  unfold yielded_by. intros Hms Hsp Hinh.
  destruct (map_r _ _) as [inh|] eqn:E; simpl in Hms; [|done].
  inv Hms. destruct (map_r_elem_of _ _ _ _ E Hsp) as (ms' & Hms' & Hin).
  rewrite bool_decide_true in Hms' by done.
  exists ms'. split; [done|]. intros m Hm.
  apply elem_of_app. right. apply elem_of_concat. by exists ms'.
Qed.

Lemma ProjectGetter_getitem_project limit self k x (ms : list (option string)) :
  ProjectGetter_getitem (S limit) self k = Ok ms →
  x ∈ findall (projects self) "project" → findtext x "email" = k →
  ∃ ms', yielded_by limit self x = Ok ms' ∧ ms' ⊆ ms.
Proof.
  rewrite ProjectGetter_getitem_S. intros Hms Hx Hk.
  destruct (map_r _ _) as [ys|] eqn:E; simpl in Hms; [|done].
  inv Hms. destruct (map_r_elem_of _ _ _ _ E Hx) as (ms' & Hms' & Hin).
  rewrite bool_decide_true in Hms' by done.
  exists ms'. split; [done|]. intros m Hm.
  apply elem_of_concat. by exists ms'.
Qed.

(** If resolving a project ends, so does, one call deeper, resolving
    every project it inherits from. *)
Lemma ProjectGetter_getitem_inherits limit self k k' (ms : list (option string)) :
  ProjectGetter_getitem (S limit) self k = Ok ms →
  inherits self k k' →
  ∃ ms', ProjectGetter_getitem limit self k' = Ok ms' ∧ ms' ⊆ ms.
Proof.
  intros Hms (x & sp & Hx & Hk & Hsp & Hinh & <-).
  destruct (ProjectGetter_getitem_project _ _ _ _ _ Hms Hx Hk)
    as (ms1 & Hms1 & Hsub1).
  destruct (yielded_by_inherited _ _ _ _ _ Hms1 Hsp Hinh)
    as (ms2 & Hms2 & Hsub2).
  exists ms2. split; [done|]. intros m Hm. by apply Hsub1, Hsub2.
Qed.

(** A project on an inheritance cycle is never resolved. *)
Lemma ProjectGetter_getitem_cycle self k k' :
  inherits self k k' → inherits self k' k →
  ∀ limit, ¬ ∃ ms, ProjectGetter_getitem limit self k = Ok ms.
Proof.
  intros Hkk' Hk'k limit. cut
    ((¬ ∃ ms, ProjectGetter_getitem limit self k = Ok ms)
     ∧ ¬ ∃ ms, ProjectGetter_getitem limit self k' = Ok ms); [tauto|].
  induction limit as [|limit [IH IH']].
  - split; by intros [ms ?].
  - split; intros [ms Hms].
    + destruct (ProjectGetter_getitem_inherits _ _ _ _ _ Hms Hkk')
        as (ms' & ? & _). apply IH'. by exists ms'.
    + destruct (ProjectGetter_getitem_inherits _ _ _ _ _ Hms Hk'k)
        as (ms' & ? & _). apply IH. by exists ms'.
Qed.

Lemma ranked_inherits self (rank : option string → nat) k k' :
  ranked self rank → inherits self k k' → rank k' < rank k.
Proof.
  unfold ranked. rewrite Forall_forall.
  intros Hr (x & sp & Hx & <- & Hsp & Hinh & <-).
  specialize (Hr x Hx). rewrite Forall_forall in Hr. apply Hr.
  unfold inherited_refs. apply list_elem_of_fmap. exists sp. split; [done|].
  by apply list_elem_of_filter.
Qed.

(** Without inheritance cycles every project is resolved, given as many
    nested calls as its rank asks for. *)
Lemma ProjectGetter_getitem_ranked self (rank : option string → nat) :
  ranked self rank →
  ∀ limit k, rank k < limit → ∃ ms, ProjectGetter_getitem limit self k = Ok ms.
Proof.
  intros Hr. induction limit as [|limit IH]; intros k Hk; [lia|].
  rewrite ProjectGetter_getitem_S.
  destruct (map_r_Ok_intro
    (λ x, if bool_decide (findtext x "email" = k)
          then yielded_by limit self x else Ok [])
    (findall (projects self) "project")) as [ys Hys].
  - apply Forall_forall. intros x Hx. case_bool_decide as Hxk; [|by eexists].
    unfold yielded_by.
    destruct (map_r_Ok_intro
      (λ sp, if bool_decide (get sp "inherit-members" = Some "1")
             then ProjectGetter_getitem limit self (get sp "ref")
             else Ok []) (findall x "subproject")) as [inh Hinh].
    + apply Forall_forall. intros sp Hsp. case_bool_decide as Hi; [|by eexists].
      apply IH.
      assert (rank (get sp "ref") < rank k); [|lia].
      apply (ranked_inherits self); [done|]. by exists x, sp.
    + rewrite Hinh. simpl. by eexists.
  - rewrite Hys. simpl. by eexists.
Qed.

End projects.

(** ** Runs of a sorted sequence *)

Section sorted_runs.

Implicit Types (it : list Result) (level : nat) (g : GroupKey) (s : string).

Lemma lexico_nil_r (l : list string) : ¬ lexico l [].
Proof. destruct l; intros H; exact H. Qed.

Lemma lexico_nil_r_iff (l : list string) : lexico l [] ↔ False.
Proof. split; [apply lexico_nil_r|done]. Qed.

Lemma lexico_nil_cons (x : string) (l : list string) : lexico [] (x :: l) ↔ True.
Proof. done. Qed.

Lemma lexico_cons (x y : string) (l k : list string) :
  lexico (x :: l) (y :: k) ↔ lexico x y ∨ x = y ∧ lexico l k.
Proof. done. Qed.

Lemma lexico_empty_r s : ¬ lexico s "".
Proof. unfold lexico, string_lexico, String_as_OT.lt. by destruct s. Qed.

Lemma lexico_empty_l s : s ≠ "" → lexico "" s.
Proof. unfold lexico, string_lexico, String_as_OT.lt. by destruct s. Qed.

(** A record that sorts before another has, at every depth, a key that
    is not above the key of the other. *)
Lemma key_le_take_split_key level (a b : Result) :
  key_le a b → lexico_le (take level (split_key a)) (take level (split_key b)).
Proof.
  unfold key_le, lexico_le, result_sort_key. intros Hab Hlt. apply Hab. clear Hab.
  revert Hlt. unfold split_key, is_empty.
  generalize (category a) (package a) (version a) (class a)
             (category b) (package b) (version b) (class b).
  intros ca pa va xa cb pb vb xb.
  pose proof lexico_empty_r as He. pose proof lexico_empty_l as He'.
  repeat case_bool_decide; subst;
    destruct level as [|[|[|[|level]]]]; simpl;
    rewrite ?lexico_cons, ?lexico_nil_cons, ?lexico_nil_r_iff;
    intros Hlt; intuition (try done; eauto; exfalso; eauto).
Qed.

Lemma StronglySorted_le_adjacent {A} `{Lexico A, !StrictOrder (@lexico A _),
      !TrichotomyT (@lexico A _)} (l : list A) :
  StronglySorted lexico_le l → adjacent_differ l → StronglySorted lexico l.
Proof.
  induction 1 as [|x l Hs IH Hx]; intros Hadj; [constructor|].
  assert (adjacent_differ l) as Hadj' by (destruct l; [done|apply Hadj]).
  constructor; [by apply IH|].
  destruct l as [|y l]; [constructor|]. destruct Hadj as [Hxy _].
  assert (lexico x y) as Hlt.
  { inv Hx. unfold lexico_le in *.
    by destruct (trichotomyT lexico x y) as [[?|?]|?]. }
  constructor; [done|].
  specialize (IH Hadj'). inv IH.
  eapply Forall_impl; [eassumption|]. intros z Hz. by trans y.
Qed.

(** For sorted keys the loop of [group_results] yields its runs in the
    order of their keys. *)
Lemma group_results_loop_sorted level g (l : list Result)
    (it : list (GroupKey * Result)) :
  StronglySorted lexico_le (g :: ((λ gr, take level (gr.1)) <$> it)) →
  StronglySorted lexico_le ((λ gr, gr.1) <$> group_results_loop level g l it)
  ∧ Forall (lexico_le g) ((λ gr, gr.1) <$> group_results_loop level g l it).
Proof.
  revert g l. induction it as [|[g' r] rest IH]; intros g l Hs.
  - simpl. split; repeat constructor; apply (irreflexivity lexico).
  - cbn [group_results_loop]. rewrite fmap_cons in Hs. simpl in Hs.
    apply StronglySorted_inv in Hs as [Hs Hg].
    case_bool_decide as Hne.
    + destruct (IH (take level g') [r] Hs) as [IH1 IH2].
      assert (lexico_le g (take level g')) as Hle by (by inv Hg).
      assert (Forall (lexico_le g)
                ((λ gr, gr.1) <$> group_results_loop level (take level g') [r] rest))
        as Hall.
      { eapply Forall_impl; [exact IH2|]. intros z Hz. by trans (take level g'). }
      destruct l as [|x l]; [done|].
      cbn [app]. rewrite fmap_cons. simpl. split.
      * by constructor.
      * constructor; [apply (irreflexivity lexico)|done].
    + apply IH. apply StronglySorted_inv in Hs as [Hs _].
      apply Forall_cons in Hg as [_ Hg]. by constructor.
Qed.

Lemma group_results_sorted_keys it level :
  Sorted key_le it →
  StronglySorted lexico ((λ gr, gr.1) <$> group_results it level).
Proof.
  intros Hs. apply StronglySorted_le_adjacent;
    [|apply group_results_loop_adjacent].
  apply group_results_loop_sorted.
  constructor.
  - unfold split_result_group. rewrite <- list_fmap_compose.
    apply (StronglySorted_fmap _ key_le).
    + intros a b. apply key_le_take_split_key.
    + apply Sorted_StronglySorted; [|done].
      intros a b c. apply (transitivity (R:=lexico_le (A:=list string))).
  - apply Forall_forall. intros k _. apply lexico_nil_r.
Qed.

(** In a sorted sequence every key has one run. *)
Lemma group_results_NoDup_keys it level :
  Sorted key_le it → NoDup ((λ gr, gr.1) <$> group_results it level).
Proof. intros Hs. by apply StronglySorted_lexico_NoDup, group_results_sorted_keys. Qed.

End sorted_runs.

(** ** The claims about grouping *)

(** C1. For every sequence of records sorted by (category, package,
    version, class) and every grouping depth among 1, 2 and 3, the leaves
    of the tree of [deep_group], read from left to right, are the input
    sequence; [group_results] cuts the sequence into runs whose
    concatenation is the sequence, every record of a run has the key of
    the run, two runs that follow each other have different keys, and no
    key has two runs. *)
Theorem deep_group_lossless (it : list Result) (level : nat) :
  Sorted key_le it → level ∈ [1; 2; 3] →
  concat (leaves <$> deep_group it level) = it
  ∧ concat ((λ gr, gr.2) <$> group_results it level) = it
  ∧ Forall (λ gr, Forall (λ r, take level (split_key r) = gr.1) gr.2)
           (group_results it level)
  ∧ adjacent_differ ((λ gr, gr.1) <$> group_results it level)
  ∧ NoDup ((λ gr, gr.1) <$> group_results it level).
Proof.
  intros Hsorted _. split_and!.
  - apply deep_group_from_leaves.
  - apply group_results_concat.
  - apply group_results_keys.
  - apply group_results_loop_adjacent.
  - by apply group_results_NoDup_keys.
Qed.

Lemma deep_group_lossless_sample :
  concat (leaves <$> deep_group sample_results 1) = sample_results
  ∧ concat ((λ gr, gr.2) <$> group_results sample_results 1) = sample_results
  ∧ Forall (λ gr, Forall (λ r, take 1 (split_key r) = gr.1) gr.2)
           (group_results sample_results 1)
  ∧ adjacent_differ ((λ gr, gr.1) <$> group_results sample_results 1)
  ∧ NoDup ((λ gr, gr.1) <$> group_results sample_results 1).
Proof.
  apply (deep_group_lossless sample_results 1).
  - refine (bool_decide_unpack _ _). vm_compute. exact I.
  - refine (bool_decide_unpack _ _). vm_compute. exact I.
Defined.

(** C10. [split_result_group] pairs every record, in order, with the
    longest prefix of (category, package, version) that has no empty
    component: the key is a prefix of the locator, holds no empty string,
    and every prefix of the locator without an empty string is a prefix of
    the key; with an empty package the key ends at the category, whatever
    the version is.  ([xml2html.py] has the same function.) *)
Theorem split_result_group_longest_prefix (it : list Result) :
(snd <$> split_result_group it) = it
  ∧ Forall (λ gr : GroupKey * Result,
              let locator := [category gr.2; package gr.2; version gr.2] in
              gr.1 `prefix_of` locator
              ∧ ("" ∉ gr.1)
              ∧ (∀ k, k `prefix_of` locator → "" ∉ k → k `prefix_of` gr.1)
              ∧ (package gr.2 = "" → gr.1 `prefix_of` [category gr.2]))
           (split_result_group it).
Proof.
  split; [apply split_result_group_snd|].
  unfold split_result_group. apply Forall_fmap, Forall_forall.
  intros r _. simpl. split_and!.
  - apply split_key_prefix.
  - apply split_key_no_empty.
  - apply split_key_longest.
  - intros Hp. unfold split_key, is_empty. rewrite Hp.
    case_bool_decide; [apply prefix_nil|].
    by rewrite bool_decide_true.
Qed.

Lemma split_result_group_sample :
  split_result_group
    [sample_result "dev-libs" "" "1.0" "X"; sample_result "" "foo" "1.0" "X"]
  = [(["dev-libs"], sample_result "dev-libs" "" "1.0" "X");
     ([], sample_result "" "foo" "1.0" "X")].
Proof. reflexivity. Qed.

(** ** The claim about the rule table *)

Lemma excluded_get (self : ClassMapping) (cls cat pkg ver : string) :
  excluded self cls cat pkg ver
  ↔ cls ∈ default []
      (default ∅ (default ∅ (_excludes self !! cat) !! pkg) !! ver).
Proof.
  unfold excluded. split.
  - intros (pkgs & vers & classes & -> & Hp & Hv & Hc). simpl.
    rewrite Hp. simpl. by rewrite Hv.
  - destruct (_excludes self !! cat) as [pkgs|]; simpl;
      [|rewrite lookup_empty; by intros ?%elem_of_nil].
    destruct (pkgs !! pkg) as [vers|] eqn:Hp; simpl;
      [|rewrite lookup_empty; by intros ?%elem_of_nil].
    destruct (vers !! ver) as [classes|] eqn:Hv; simpl;
      [|by intros ?%elem_of_nil].
    intros Hc. by exists pkgs, vers, classes.
Qed.

(** C3. For every rule table, class name and locator (taken from an
    element as [ClassMapping.map] reads them): when the class is a member
    of [excludes[category][package][version]] the severity is the empty
    one, whatever the base mapping says; otherwise it is the base
    mapping's value for the class, and the empty one when the base mapping
    has no such class.  A missing level of [excludes] counts as no
    member.  The function is total: no input makes it raise. *)
Theorem ClassMapping_map_resolve (self : ClassMapping) (el : Element) :
  let cls := findtext_default el "class" "" in
  let cat := findtext_default el "category" "" in
  let pkg := findtext_default el "package" "" in
  let ver := findtext_default el "version" "" in
  (excluded self cls cat pkg ver → ClassMapping_map self el = "")
  ∧ (¬ excluded self cls cat pkg ver →
     ClassMapping_map self el = default "" (_class_mapping self !! cls))
  ∧ (_class_mapping self !! cls = None → ClassMapping_map self el = "")
  ∧ (_excludes self !! cat = None →
     ClassMapping_map self el = default "" (_class_mapping self !! cls)).
Proof.
  intros cls cat pkg ver. unfold ClassMapping_map.
  fold cls cat pkg ver. split_and!.
  - intros He%excluded_get. by rewrite bool_decide_true.
  - intros He. rewrite bool_decide_false; [done|]. by rewrite <- excluded_get.
  - intros ->. by case_bool_decide.
  - intros Hc. rewrite bool_decide_false; [done|].
    rewrite Hc. simpl. rewrite lookup_empty. by intros ?%elem_of_nil.
Qed.

(** The fields of a [result] element are the class and the locator it was
    built from. *)
Lemma result_element_fields (cat pkg ver cls : string) :
  findtext_default (result_element cat pkg ver cls) "class" "" = cls
  ∧ findtext_default (result_element cat pkg ver cls) "category" "" = cat
  ∧ findtext_default (result_element cat pkg ver cls) "package" "" = pkg
  ∧ findtext_default (result_element cat pkg ver cls) "version" "" = ver.
Proof. done. Qed.

(** An exclude wins over the base mapping. *)
Lemma ClassMapping_map_sample :
  ClassMapping_map
    {| _class_mapping := sample_mapping;
       _excludes := {[ "dev-libs" := {[ "foo" := {[ "1.0" := ["X"] ]} ]} ]} |}
    (result_element "dev-libs" "foo" "1.0" "X") = ""
  ∧ ClassMapping_map sample_rules (result_element "dev-libs" "foo" "1.0" "X")
    = "err".
Proof. split; by vm_compute. Qed.

(** ** The claims about the severity index *)

(** C5. Every record of the input whose severity is "err" is found in the
    error index that [find_of_class] builds at depth 2: the index has an
    entry for the class of the record, and the keys of that entry include
    the key of the record cut to (category, package). *)
Theorem find_of_class_err_complete (it : list Result) (r : Result) :
  r ∈ it → css_class r = "err" →
  ∃ gs, (class r, gs) ∈ find_of_class it "err" 2
        ∧ take 2 (split_key r) ∈ gs.
Proof. apply find_of_class_complete_at. Qed.

Lemma find_of_class_err_complete_sample :
  ∃ gs, (class (sample_result "dev-libs" "foo" "1.0" "X"), gs)
          ∈ find_of_class sample_results "err" 2
        ∧ take 2 (split_key (sample_result "dev-libs" "foo" "1.0" "X")) ∈ gs.
Proof.
  apply (find_of_class_err_complete sample_results
           (sample_result "dev-libs" "foo" "1.0" "X")).
  - apply list_elem_of_further, list_elem_of_here.
  - vm_compute. reflexivity.
Defined.

(** The error index of the sample records. *)
Lemma find_of_class_sample :
  find_of_class sample_results "err" 2
  = [("X", [["dev-libs"; "bar"]; ["dev-libs"; "foo"]])].
Proof. by vm_compute. Qed.

(** C6. Whatever the order in which the dictionary hands out its items
    and a set its elements, the output of [find_of_class] is the same
    list: its class names increase strictly, and the keys of every entry
    increase strictly in the order of tuples, so no key occurs twice.
    The index is a function of the records, the severity and the depth
    alone, as the grouping tree is a function of the records. *)
Theorem find_of_class_sorted_deterministic
    (items : gmap string (gset (list string))
             → list (string * gset (list string)))
    (iter : gset (list string) → list (list string))
    (it : list Result) (cls : string) (level : nat) :
  enumerates_items items → enumerates_elements iter →
  let index := find_of_class_with items iter it cls level in
  StronglySorted lexico (index.*1)
  ∧ Forall (λ kv : string * list GroupKey,
              StronglySorted lexico (kv.2) ∧ NoDup (kv.2)) index
  ∧ index = find_of_class it cls level.
Proof.
  intros Hitems Hiter index. subst index.
  rewrite (find_of_class_with_eq _ _ _ _ _ Hitems Hiter). split_and!.
  - apply find_of_class_keys_sorted.
  - eapply Forall_impl; [apply find_of_class_groups_sorted|].
    intros kv Hkv. split; [done|]. by apply StronglySorted_lexico_NoDup.
  - done.
Qed.

Lemma find_of_class_sorted_deterministic_sample :
  let index := find_of_class_with (λ m, reverse (map_to_list m))
                 (λ s, reverse (elements s)) sample_results "err" 2 in
  StronglySorted lexico (index.*1)
  ∧ Forall (λ kv : string * list GroupKey,
              StronglySorted lexico (kv.2) ∧ NoDup (kv.2)) index
  ∧ index = find_of_class sample_results "err" 2.
Proof.
  apply (find_of_class_sorted_deterministic
           (λ m, reverse (map_to_list m)) (λ s, reverse (elements s))
           sample_results "err" 2).
  - intros m. apply reverse_Permutation.
  - intros s. apply reverse_Permutation.
Defined.

(** ** The claim about verbose records *)

(** C7. A record that [get_results] yields passed the filter it was
    given, and has no verbose severity unless verbose output was asked
    for.  The verbose check is made first and on its own: the records
    that [get_results] yields from a document are those that the filter
    keeps among the records left by the verbose check, and the package
    and maintainer predicates enter the filter as a conjunction. *)
Theorem get_results_drops_verbose (w : World) (input_paths : list string)
    (class_mapping : gmap string string)
    (excludes : gmap string (gmap string (gmap string (list string))))
    (verbose_flag : bool) (pkg_filter : Result → result bool)
    (rs : list Result) :
  get_results w input_paths class_mapping excludes verbose_flag pkg_filter
    = Ok rs →
  (verbose_flag = false → Forall (λ r, css_class r ≠ "verbose") rs)
  ∧ Forall (λ r, pkg_filter r = Ok true) rs
  ∧ (∀ mapper checks,
       get_results_of mapper verbose_flag pkg_filter checks
       = filter_r pkg_filter
           (filter (λ r, ¬ (verbose r ∧ verbose_flag = false))
                   ((λ el, Build_Result el mapper) <$> checks)))
  ∧ (∀ maint_filter pkgs x keep,
       maint_filter x = Ok keep →
       combined_filter maint_filter pkgs x = Ok (keep && pkgs x)).
Proof.
  unfold get_results. intros Hrs%get_results_from_Ok. split_and!.
  - intros Hv. eapply Forall_impl; [exact Hrs|]. intros r [Hr _]. by apply Hr.
  - eapply Forall_impl; [exact Hrs|]. by intros r [_ Hr].
  - intros mapper checks. apply get_results_of_filter_r.
  - intros maint_filter pkgs x keep Hk. unfold combined_filter. by rewrite Hk.
Qed.

Lemma get_results_drops_verbose_sample :
  (false = false → Forall (λ r, css_class r ≠ "verbose") sample_read)
  ∧ Forall (λ r, (λ _ : Result, Ok true) r = Ok true) sample_read
  ∧ (∀ mapper checks,
       get_results_of mapper false (λ _, Ok true) checks
       = filter_r (λ _, Ok true)
           (filter (λ r, ¬ (verbose r ∧ false = false))
                   ((λ el, Build_Result el mapper) <$> checks)))
  ∧ (∀ maint_filter pkgs x keep,
       maint_filter x = Ok keep →
       combined_filter maint_filter pkgs x = Ok (keep && pkgs x)).
Proof.
  apply (get_results_drops_verbose sample_world ["first.xml"; "second.xml"]
           sample_mapping ∅ false (λ _, Ok true) sample_read).
  vm_compute. reflexivity.
Defined.

(** What [main] sorts and groups has no verbose record either. *)
Lemma main_results_no_verbose (limit : nat) (w : World) (args : Args)
    (class_mapping : gmap string string)
    (excludes : gmap string (gmap string (gmap string (list string))))
    (rs : list Result) :
  main_results limit w args class_mapping excludes = Ok rs →
  args_verbose args = false →
  Forall (λ r, css_class r ≠ "verbose") rs.
Proof.
  unfold main_results. intros Hrs Hv.
  destruct (main_maint_filter limit w args) as [mf|]; simpl in Hrs; [|done].
  destruct (get_results _ _ _ _ _ _) as [rs'|] eqn:E; simpl in Hrs; [|done].
  inv Hrs. rewrite sorted_by_Permutation.
  apply get_results_from_Ok in E.
  eapply Forall_impl; [exact E|]. intros r [Hr _]. by apply Hr.
Qed.

(** ** The claims about maintainers *)

(** C4, as the specification states it, does not hold: when reading the
    metadata of a package fails, the lookup answers with the empty list,
    not with the sentinel. *)
Lemma MaintainerGetter_getitem_absent_is_empty :
  parse sample_world
    (path_join "/usr/portage" ["dev-libs/baz"; "metadata.xml"]) = Raise OSError
  ∧ MaintainerGetter_getitem sample_world {| repo := "/usr/portage" |}
      "dev-libs/baz" = Ok []
  ∧ MaintainerGetter_getitem sample_world {| repo := "/usr/portage" |}
      "dev-libs/baz" ≠ Ok ["maintainer-needed"].
Proof. split_and!; by vm_compute. Qed.

(** C4, amended.  The lookup answers with the one-element list of the
    sentinel when the metadata of the package is read and names no
    maintainer, and with the empty list when reading the metadata fails
    with [OSError]; in both cases it returns and raises nothing. *)
Theorem MaintainerGetter_getitem_fallback (w : World)
    (self : MaintainerGetter) (k : string) :
  let p := path_join (repo self) [k; "metadata.xml"] in
  (parse w p = Raise OSError → MaintainerGetter_getitem w self k = Ok [])
  ∧ (∀ metadata, parse w p = Ok metadata →
       findall metadata "maintainer" = [] →
       MaintainerGetter_getitem w self k = Ok ["maintainer-needed"]).
Proof.
  intros p. split.
  - apply MaintainerGetter_getitem_OSError.
  - apply MaintainerGetter_getitem_no_maintainer.
Qed.

Lemma MaintainerGetter_getitem_fallback_sample :
  MaintainerGetter_getitem sample_world {| repo := "/usr/portage" |}
    "dev-libs/baz" = Ok []
  ∧ MaintainerGetter_getitem sample_world {| repo := "/usr/portage" |}
      "dev-libs/bar" = Ok ["maintainer-needed"].
Proof.
  pose proof (MaintainerGetter_getitem_fallback sample_world
                {| repo := "/usr/portage" |} "dev-libs/baz") as [Hbaz _].
  pose proof (MaintainerGetter_getitem_fallback sample_world
                {| repo := "/usr/portage" |} "dev-libs/bar") as [_ Hbar].
  split.
  - apply Hbaz. vm_compute. reflexivity.
  - apply (Hbar (metadata_of [])); vm_compute; reflexivity.
Defined.

(** A failure to parse the metadata is not caught. *)
Lemma MaintainerGetter_getitem_raises (w : World) (self : MaintainerGetter)
    (k : string) (e : exn) :
  parse w (path_join (repo self) [k; "metadata.xml"]) = Raise e →
  e ≠ OSError → MaintainerGetter_getitem w self k = Raise e.
Proof. unfold MaintainerGetter_getitem. intros -> He. by destruct e. Qed.

(** C8, as the specification states it, does not hold.  With the
    sentinel as filter a record is kept whose entry names the sentinel
    beside a developer, and so is not the sentinel list; and with project
    expansion the filter nobody@gentoo.org keeps a record against a
    package without maintainers, when a project of that developer carries
    the identity of the sentinel. *)
Lemma maint_filter_sentinel_not_exact :
  (normalize_maintainer "maintainer-needed" = "maintainer-needed@gentoo.org"
   ∧ maint_filter_answer 10 sample_world
       (sample_args (Some "maintainer-needed") false)
       (sample_result "dev-libs" "foo" "1.0" "X") = Ok true
   ∧ entry_of sample_world (sample_args (Some "maintainer-needed") false)
       (sample_result "dev-libs" "foo" "1.0" "X")
     = Ok ["maintainer-needed"; "dev@g.o"])
  ∧ (normalize_maintainer "nobody@gentoo.org" ≠ "maintainer-needed@gentoo.org"
     ∧ findall (metadata_of []) "maintainer" = []
     ∧ parse sample_world "/usr/portage/dev-libs/bar/metadata.xml"
       = Ok (metadata_of [])
     ∧ maint_filter_answer 10 sample_world
         (sample_args (Some "nobody@gentoo.org") true)
         (sample_result "dev-libs" "bar" "1.0" "X") = Ok true).
Proof. split_and!; by vm_compute. Qed.

Lemma main_maint_filter_Some (limit : nat) (w : World) (args : Args)
    (m : string) :
  args_maintainer args = Some m → m ≠ "" →
  main_maint_filter limit w args =
  (match_ ← main_match limit w args (normalize_maintainer m);
   Ok (maint_filter_of w {| repo := args_repo args |} match_)).
Proof.
  intros Hm Hne. unfold main_maint_filter, truthy, is_empty. rewrite Hm.
  by rewrite bool_decide_false.
Qed.

Lemma main_match_no_projects (limit : nat) (w : World) (args : Args)
    (m : string) :
  m ≠ "maintainer-needed@gentoo.org" → args_projects args = false →
  main_match limit w args m = Ok {[ replace "@gentoo.org" "@g.o" m ]}.
Proof.
  intros Hm Hp. unfold main_match. rewrite bool_decide_true, Hp by done.
  simpl. f_equal. apply (right_id_L ∅ (∪)).
Qed.

(** C8, amended.  When the maintainer asked for is rewritten to the
    sentinel, the filter keeps exactly the records whose entry in the
    index of maintainers names the sentinel, among them every record whose
    entry is the sentinel list.  For any other maintainer, a record
    against a package whose metadata names no maintainer is kept exactly
    when the set of names to match holds the sentinel; without project
    expansion that set is the maintainer alone, which is never the
    sentinel, so no such record is kept (as with nobody@gentoo.org). *)
Theorem maint_filter_sentinel (limit : nat) (w : World) (args : Args)
    (m : string) :
  args_maintainer args = Some m → m ≠ "" →
  (normalize_maintainer m = "maintainer-needed@gentoo.org" →
   ∀ x ms, entry_of w args x = Ok ms →
     maint_filter_answer limit w args x
     = Ok (bool_decide ("maintainer-needed" ∈ ms)))
  ∧ (normalize_maintainer m ≠ "maintainer-needed@gentoo.org" →
     ∀ x metadata match_,
       parse w (path_join (args_repo args)
                  [join "/" [category x; package x]; "metadata.xml"])
         = Ok metadata →
       findall metadata "maintainer" = [] →
       main_match limit w args (normalize_maintainer m) = Ok match_ →
       maint_filter_answer limit w args x
       = Ok (bool_decide ("maintainer-needed" ∈ match_)))
  ∧ (normalize_maintainer m ≠ "maintainer-needed@gentoo.org" →
     args_projects args = false →
     ∀ x metadata,
       parse w (path_join (args_repo args)
                  [join "/" [category x; package x]; "metadata.xml"])
         = Ok metadata →
       findall metadata "maintainer" = [] →
       maint_filter_answer limit w args x = Ok false).
Proof.
  intros Hm Hne. unfold maint_filter_answer.
  rewrite (main_maint_filter_Some _ _ _ _ Hm Hne). split_and!.
  - intros Hs x ms Hms. unfold main_match.
    rewrite bool_decide_false by (by intros ?). simpl.
    unfold maint_filter_of. unfold entry_of in Hms. rewrite Hms. simpl.
    by rewrite intersects_singleton.
  - intros Hs x metadata match_ Hp Hf Hmatch. rewrite Hmatch. simpl.
    unfold maint_filter_of.
    rewrite (MaintainerGetter_getitem_no_maintainer
               w {| repo := args_repo args |} _ _ Hp Hf). simpl.
    by rewrite intersects_sentinel_list.
  - intros Hs Hproj x metadata Hp Hf.
    rewrite (main_match_no_projects _ _ _ _ Hs Hproj). simpl.
    unfold maint_filter_of.
    rewrite (MaintainerGetter_getitem_no_maintainer
               w {| repo := args_repo args |} _ _ Hp Hf). simpl.
    rewrite intersects_sentinel_list. f_equal. apply bool_decide_false.
    intros Hin%elem_of_singleton.
    by apply (format_normalize_not_sentinel m).
Qed.

Lemma maint_filter_sentinel_sample :
  maint_filter_answer 10 sample_world
    (sample_args (Some "nobody@gentoo.org") false)
    (sample_result "dev-libs" "bar" "1.0" "X") = Ok false.
Proof.
  pose proof (maint_filter_sentinel 10 sample_world
                (sample_args (Some "nobody@gentoo.org") false)
                "nobody@gentoo.org" eq_refl) as H.
  destruct H as (_ & _ & H); [by vm_compute|].
  apply (H ltac:(by vm_compute) eq_refl
           (sample_result "dev-libs" "bar" "1.0" "X") (metadata_of []));
    vm_compute; reflexivity.
Defined.

(** ** The claim about projects *)

Lemma cyclic_projects_inherit :
  inherits cyclic_projects (Some "p1@gentoo.org") (Some "p2@gentoo.org")
  ∧ inherits cyclic_projects (Some "p2@gentoo.org") (Some "p1@gentoo.org").
Proof.
  split.
  - exists (project_of "p1@gentoo.org" ["dev@gentoo.org"] ["p2@gentoo.org"]),
      (Elem "subproject" [("ref", "p2@gentoo.org"); ("inherit-members", "1")]
         None []).
    split_and!; try (by vm_compute); apply list_elem_of_here.
  - exists (project_of "p2@gentoo.org" [] ["p1@gentoo.org"]),
      (Elem "subproject" [("ref", "p1@gentoo.org"); ("inherit-members", "1")]
         None []).
    split_and!; try (by vm_compute);
      [apply list_elem_of_further|]; apply list_elem_of_here.
Qed.

(** C2, as the specification states it, does not hold: when two projects
    inherit from each other, no number of nested calls is enough to
    resolve them; one of them has a direct member all the same. *)
Lemma ProjectGetter_getitem_cyclic_never_returns :
  ¬ ∃ limit ms,
      ProjectGetter_getitem limit cyclic_projects (Some "p2@gentoo.org")
      = Ok ms.
Proof.
  intros (limit & ms & Hms).
  destruct cyclic_projects_inherit as [H12 H21].
  apply (ProjectGetter_getitem_cycle _ _ _ H21 H12 limit). by exists ms.
Qed.

(** C2, amended.  In a graph of projects without inheritance cycles,
    resolving any project returns once the interpreter allows as many
    nested calls as the rank of the project asks for; and when project
    [p2] inherits the members of project [p1], every direct member of [p1]
    is among the members that resolving [p2] returns. *)
Theorem ProjectGetter_getitem_acyclic (self : ProjectGetter)
    (rank : option string → nat) (limit : nat) (p1 p2 : option string)
    (x1 x2 sp : Element) (m : option string) :
  ranked self rank → rank p2 < limit →
  x2 ∈ findall (projects self) "project" → findtext x2 "email" = p2 →
  sp ∈ findall x2 "subproject" → get sp "inherit-members" = Some "1" →
  get sp "ref" = p1 →
  x1 ∈ findall (projects self) "project" → findtext x1 "email" = p1 →
  m ∈ (λ e, findtext e "email") <$> findall x1 "member" →
  (∀ k, rank k < limit → ∃ ms, ProjectGetter_getitem limit self k = Ok ms)
  ∧ ∃ ms, ProjectGetter_getitem limit self p2 = Ok ms ∧ m ∈ ms.
Proof.
  intros Hr Hlim Hx2 He2 Hsp Hinh Href Hx1 He1 Hm. split.
  - intros k Hk. by apply (ProjectGetter_getitem_ranked self rank).
  - destruct (ProjectGetter_getitem_ranked self rank Hr limit p2 Hlim)
      as [ms Hms].
    exists ms. split; [done|].
    destruct limit as [|limit]; [done|].
    assert (inherits self p2 p1) as Hin by (by exists x2, sp).
    destruct (ProjectGetter_getitem_inherits _ _ _ _ _ Hms Hin)
      as (ms1 & Hms1 & Hsub1).
    apply Hsub1. destruct limit as [|limit]; [done|].
    destruct (ProjectGetter_getitem_project _ _ _ _ _ Hms1 Hx1 He1)
      as (ms2 & Hms2 & Hsub2).
    apply Hsub2. by apply (yielded_by_members _ _ _ _ _ Hms2).
Qed.

Lemma ProjectGetter_getitem_acyclic_sample :
  (∀ k, acyclic_rank k < 2 →
        ∃ ms, ProjectGetter_getitem 2 acyclic_projects k = Ok ms)
  ∧ ∃ ms, ProjectGetter_getitem 2 acyclic_projects (Some "p2@gentoo.org")
          = Ok ms ∧ Some "dev@gentoo.org" ∈ ms.
Proof.
  apply (ProjectGetter_getitem_acyclic acyclic_projects acyclic_rank 2
           (Some "p1@gentoo.org") (Some "p2@gentoo.org")
           (project_of "p1@gentoo.org" ["dev@gentoo.org"] [])
           (project_of "p2@gentoo.org" [] ["p1@gentoo.org"])
           (Elem "subproject"
              [("ref", "p1@gentoo.org"); ("inherit-members", "1")] None [])
           (Some "dev@gentoo.org")).
  - refine (bool_decide_unpack _ _). vm_compute. exact I.
  - vm_compute. lia.
  - apply list_elem_of_further, list_elem_of_here.
  - vm_compute. reflexivity.
  - apply list_elem_of_here.
  - vm_compute. reflexivity.
  - vm_compute. reflexivity.
  - apply list_elem_of_here.
  - vm_compute. reflexivity.
  - apply list_elem_of_here.
Defined.

(** ** The claim about the timestamp *)

(** C9, as the specification states it, does not hold: of two reports of
    which the second is the older one, the timestamp is taken from the
    first. *)
Lemma main_ts_not_earliest :
  main_ts sample_world (sample_args None false)
  = Ok (Some (utcfromtimestamp 200))
  ∧ earliest_mtime sample_world (args_files (sample_args None false))
    = Ok (Some 100%Z).
Proof. split; by vm_compute. Qed.

(** C9, amended.  Without a timestamp on the command line, the timestamp
    handed to the template is the modification time of the first input
    file. *)
Theorem main_ts_first_file (w : World) (args : Args) (p : string)
    (rest : list string) (mtime : Z) :
  args_timestamp args = None → args_files args = p :: rest →
  st_mtime w p = Ok mtime →
  main_ts w args = Ok (Some (utcfromtimestamp mtime)).
Proof.
  intros Ht Hf Hs. unfold main_ts, get_result_timestamp.
  by rewrite Ht, Hf, Hs.
Qed.

Lemma main_ts_first_file_sample :
  main_ts sample_world (sample_args None false)
  = Ok (Some (utcfromtimestamp 200)).
Proof.
  apply (main_ts_first_file sample_world (sample_args None false)
           "first.xml" ["second.xml"] 200); reflexivity.
Defined.

(** * Further properties *)

(** ** Runs and the tree built from them *)

Lemma group_results_loop_level_0 (l : list Result)
    (it : list (GroupKey * Result)) :
  group_results_loop 0 [] l it = [([], l ++ (snd <$> it))].
Proof.
  revert l. induction it as [|[g' r] rest IH]; intros l.
  - simpl. by rewrite app_nil_r.
  - cbn [group_results_loop]. rewrite take_0.
    rewrite bool_decide_false by (by intros ?). rewrite IH.
    by rewrite <- app_assoc.
Qed.

Lemma group_results_nonempty (it : list Result) (level : nat) :
  it ≠ [] → Forall (λ gr, gr.2 ≠ []) (group_results it level).
Proof.
  intros Hne. apply group_results_loop_nonempty.
  by rewrite app_nil_l, split_result_group_snd.
Qed.

(** Only the run of an empty input is empty, and its key is the empty
    tuple. *)
Lemma group_results_empty_run (it : list Result) (level : nat)
    (gr : GroupKey * list Result) :
  gr ∈ group_results it level → gr.2 = [] → it = [] ∧ gr.1 = [].
Proof.
  intros Hgr Hnil. destruct it as [|x it].
  - apply list_elem_of_singleton in Hgr. by subst gr.
  - pose proof (group_results_nonempty (x :: it) level ltac:(done)) as Hne.
    rewrite Forall_forall in Hne. by destruct (Hne gr Hgr).
Qed.

(** X1. [group_results] always yields a run; for an empty input it is
    the single run of the empty key without records; for any other input
    no run is empty; and at depth 0 the whole input is one run under the
    empty key. *)
Theorem group_results_runs (it : list Result) (level : nat) :
  group_results it level ≠ []
  ∧ (it = [] → group_results it level = [([], [])])
  ∧ (it ≠ [] → Forall (λ gr, gr.2 ≠ []) (group_results it level))
  ∧ group_results it 0 = [([], it)].
Proof.
  split_and!.
  - intros Hnil. destruct it as [|x it]; [done|].
    pose proof (group_results_concat (x :: it) level) as Hc.
    by rewrite Hnil in Hc.
  - by intros ->.
  - apply group_results_nonempty.
  - unfold group_results.
    by rewrite group_results_loop_level_0, split_result_group_snd.
Qed.

Lemma deep_group_from_depth (depth : nat) (it : list Result) (level : nat) :
  Forall (has_depth depth) (deep_group_from depth it level).
Proof.
  revert it level. induction depth as [|depth IH]; intros it level; simpl.
  - apply Forall_forall. intros n Hn.
    apply list_elem_of_bind in Hn as ([g r] & Hn & _).
    apply list_elem_of_fmap in Hn as (x & -> & _). constructor.
  - apply Forall_fmap, Forall_forall. intros [g r] _. simpl.
    constructor. apply IH.
Qed.

Lemma deep_group_from_keys (depth : nat) (it : list Result) (level : nat) :
  node_key <$> deep_group_from (S depth) it level
  = (λ gr, gr.1) <$> group_results it level.
Proof. simpl. rewrite <- list_fmap_compose. by apply list_fmap_ext. Qed.

(** X2. Every node that [deep_group] yields at a depth [level] lies
    [4 - level] levels of groups above the records: the tree that [main]
    renders has exactly three levels of groups.  Up to depth 3 the nodes
    are the runs of [group_results], one group for each, under the key of
    the run. *)
Theorem deep_group_shape (it : list Result) (level : nat) :
  Forall (has_depth (4 - level)) (deep_group it level)
  ∧ (level ≤ 3 →
     node_key <$> deep_group it level
     = (λ gr, gr.1) <$> group_results it level).
Proof.
  split; [apply deep_group_from_depth|].
  intros Hl. unfold deep_group.
  destruct (4 - level) as [|depth] eqn:E; [lia|].
  apply deep_group_from_keys.
Qed.

(** The nodes below a run carry keys that extend the key of the run. *)
Lemma deep_group_from_child_keys (depth : nat) (r : list Result)
    (level : nat) (g : GroupKey) :
  Forall (λ x, take level (split_key x) = g) r → (r = [] → g = []) →
  Forall (λ c, take level (node_key c) = g)
         (deep_group_from depth r (S level)).
Proof.
  intros Hr Hnil. rewrite Forall_forall in Hr.
  apply Forall_forall. intros c Hc. destruct depth as [|depth]; simpl in Hc.
  - apply list_elem_of_bind in Hc as ([g' r'] & Hc & Hgr).
    apply list_elem_of_fmap in Hc as (x & -> & Hx). simpl. apply Hr.
    apply (elem_of_group_results r (S level)). by exists (g', r').
  - apply list_elem_of_fmap in Hc as ([g' r'] & -> & Hgr). simpl.
    destruct r' as [|x r'].
    + destruct (group_results_empty_run _ _ _ Hgr eq_refl) as [Hr' Hg'].
      simpl in Hg'. subst g'. rewrite (Hnil Hr'). by rewrite take_nil.
    + pose proof (group_results_keys r (S level)) as Hk.
      rewrite Forall_forall in Hk. specialize (Hk _ Hgr). simpl in Hk.
      apply Forall_cons in Hk as [Hx _]. rewrite <- Hx, take_take.
      replace (level `min` S level) with level by lia.
      apply Hr. apply (elem_of_group_results r (S level)).
      exists (g', x :: r'). split; [done|]. by left.
Qed.

Lemma deep_group_from_keys_nest (depth : nat) (it : list Result) (level : nat) :
  Forall (keys_nest level) (deep_group_from depth it level).
Proof.
  revert it level. induction depth as [|depth IH]; intros it level; simpl.
  - apply Forall_forall. intros n Hn.
    apply list_elem_of_bind in Hn as ([g r] & Hn & _).
    apply list_elem_of_fmap in Hn as (x & -> & _). constructor.
  - apply Forall_fmap, Forall_forall. intros [g r] Hgr. simpl.
    constructor; [|apply IH].
    apply deep_group_from_child_keys.
    + pose proof (group_results_keys it level) as Hk.
      rewrite Forall_forall in Hk. apply (Hk _ Hgr).
    + intros Hr. by destruct (group_results_empty_run _ _ _ Hgr Hr).
Qed.

(** X3. In the tree of [deep_group] the keys nest: below a group made at
    a depth, every group and every record has a key that, cut to that
    depth, is the key of the group. *)
Theorem deep_group_keys_nest (it : list Result) (level : nat) :
  Forall (keys_nest level) (deep_group it level).
Proof. apply deep_group_from_keys_nest. Qed.
(** ** The entries of the severity index *)

(** No class is entered in the dictionary of [find_of_class] without a
    key. *)
Lemma find_of_class_out_nonempty (it : list Result) (cls : string)
    (level : nat) (k : string) (s : gset (list string)) :
  find_of_class_out it cls level !! k = Some s → s ≠ ∅.
Proof.
  unfold find_of_class_out.
  assert (∀ (grs : list (GroupKey * list Result))
            (out : gmap string (gset (list string))),
            (∀ k s, out !! k = Some s → s ≠ ∅) →
            ∀ k s, foldl (λ out (gr : GroupKey * list Result),
                            foldl (index_step cls gr.1) out gr.2) out grs
                   !! k = Some s → s ≠ ∅) as Hfold.
  { induction grs as [|[g r] grs IH]; intros out Hout; [done|].
    simpl. apply IH. clear IH grs. revert out Hout.
    induction r as [|x r IH]; intros out Hout; [done|].
    simpl. apply IH. intros k' s'. unfold index_step, add_to.
    case_bool_decide; [|apply Hout].
    destruct (decide (class x = k')) as [->|Hne].
    - rewrite lookup_insert_eq. intros [= <-] Hempty.
      apply (not_elem_of_empty (C:=gset (list string)) g).
      rewrite <- Hempty. apply elem_of_union_r. by apply elem_of_singleton.
    - rewrite lookup_insert_ne by done. apply Hout. }
  apply Hfold. intros k' s'. by rewrite lookup_empty.
Qed.

Lemma elem_of_find_of_class (it : list Result) (cls : string) (level : nat)
    (k : string) (gs : list GroupKey) :
  (k, gs) ∈ find_of_class it cls level ↔
  ∃ s, find_of_class_out it cls level !! k = Some s
       ∧ gs = sorted (elements s).
Proof.
  unfold find_of_class, find_of_class_with. rewrite list_elem_of_fmap. split.
  - intros ([k' s] & [= -> ->] & Hin).
    rewrite sorted_by_Permutation in Hin. apply elem_of_map_to_list in Hin.
    by exists s.
  - intros (s & Hs & ->). exists (k, s). split; [done|].
    rewrite sorted_by_Permutation. by apply elem_of_map_to_list.
Qed.

(** X4. An entry of the index of [find_of_class] is never empty, and it
    lists exactly the keys, cut to the depth of the index, of the records
    of its class whose severity is the one asked for: the index names no
    group without such a record. *)
Theorem find_of_class_entry (it : list Result) (cls : string) (level : nat)
    (k : string) (gs : list GroupKey) :
  (k, gs) ∈ find_of_class it cls level →
  gs ≠ []
  ∧ ∀ g, g ∈ gs ↔ ∃ x, x ∈ it ∧ css_class x = cls ∧ class x = k
                       ∧ take level (split_key x) = g.
Proof.
  intros (s & Hs & ->)%elem_of_find_of_class. split.
  - intros Hnil. apply (find_of_class_out_nonempty _ _ _ _ _ Hs).
    assert (elements s ≡ₚ []) as Hp
      by (rewrite <- Hnil; symmetry; apply sorted_Permutation).
    apply Permutation_nil_r in Hp.
    by apply elements_empty_inv, leibniz_equiv in Hp.
  - intros g. rewrite sorted_Permutation, elem_of_elements.
    rewrite <- elem_of_find_of_class_out. by rewrite Hs.
Qed.

Lemma find_of_class_entry_sample :
  [["dev-libs"; "bar"]; ["dev-libs"; "foo"]] ≠ []
  ∧ ∀ g, g ∈ [["dev-libs"; "bar"]; ["dev-libs"; "foo"]]
         ↔ ∃ x, x ∈ sample_results ∧ css_class x = "err" ∧ class x = "X"
                ∧ take 2 (split_key x) = g.
Proof.
  apply (find_of_class_entry sample_results "err" 2 "X").
  vm_compute. apply list_elem_of_here.
Defined.

(** X5. The index of a severity is empty exactly when no record has that
    severity. *)
Theorem find_of_class_nil (it : list Result) (cls : string) (level : nat) :
  find_of_class it cls level = [] ↔ Forall (λ x, css_class x ≠ cls) it.
Proof.
  split.
  - intros Hnil. apply Forall_forall. intros x Hx Hc.
    destruct (find_of_class_complete_at it cls level x Hx Hc) as (gs & Hin & _).
    rewrite Hnil in Hin. by apply elem_of_nil in Hin.
  - intros Hall. destruct (find_of_class it cls level) as [|[k gs] l] eqn:E;
      [done|].
    assert ((k, gs) ∈ find_of_class it cls level) as Hin
      by (rewrite E; apply list_elem_of_here).
    apply elem_of_find_of_class in Hin as (s & Hs & ->).
    pose proof (find_of_class_out_nonempty _ _ _ _ _ Hs) as Hne.
    apply set_choose_L in Hne as [g Hg].
    assert (g ∈ default ∅ (find_of_class_out it cls level !! k)) as Hg'
      by (by rewrite Hs).
    apply elem_of_find_of_class_out in Hg' as (x & Hx & Hc & _).
    rewrite Forall_forall in Hall. by destruct (Hall x Hx).
Qed.

(** ** The index of [xml2html.py] *)

Lemma elem_of_xml2html_find_of_class (it : list Result) (cls : string)
    (level : nat) (g : GroupKey) :
  g ∈ xml2html.find_of_class it cls level ↔
  ∃ x, x ∈ it ∧ xml2html.css_class x = cls ∧ take level (split_key x) = g.
Proof.
  unfold xml2html.find_of_class. rewrite list_elem_of_bind.
  pose proof (group_results_keys it level) as Hk. rewrite Forall_forall in Hk.
  split.
  - intros ([g' r] & Hg & Hgr). simpl in Hg.
    case_bool_decide as He; [|by apply elem_of_nil in Hg].
    apply list_elem_of_singleton in Hg as ->.
    apply Exists_exists in He as (x & Hx & Hc). exists x. split_and!; [|done|].
    + apply (elem_of_group_results it level). by exists (g', r).
    + specialize (Hk _ Hgr). rewrite Forall_forall in Hk. by apply Hk.
  - intros (x & Hx & Hc & <-).
    apply (elem_of_group_results it level) in Hx as ([g' r] & Hgr & Hx).
    exists (g', r). split; [|done]. simpl in *.
    rewrite bool_decide_true by (apply Exists_exists; by exists x).
    apply list_elem_of_singleton. specialize (Hk _ Hgr).
    rewrite Forall_forall in Hk. by apply Hk.
Qed.

Lemma xml2html_find_of_class_sublist (it : list Result) (cls : string)
    (level : nat) :
  xml2html.find_of_class it cls level
    `sublist_of` ((λ gr, gr.1) <$> group_results it level).
Proof.
  unfold xml2html.find_of_class.
  induction (group_results it level) as [|[g r] grs IH]; [done|].
  rewrite bind_cons, fmap_cons. simpl.
  case_bool_decide; simpl; by constructor.
Qed.

(** The records of [xml2html.py] are sorted with the message as last
    component of the key; they are sorted by the shorter key as well. *)
Lemma xml2html_sorted (a b : Result) : xml2html.msg_key_le a b → key_le a b.
Proof.
  unfold xml2html.msg_key_le, key_le, lexico_le.
  unfold xml2html.result_sort_key, result_sort_key.
  intros Hab Hlt. apply Hab. revert Hlt. rewrite !lexico_cons.
  rewrite !lexico_nil_r_iff. intuition.
Qed.

(** X6. [find_of_class] of [xml2html.py] yields a key exactly when a
    record of the asked severity has that key, cut to the depth; and for
    records sorted as its [main] sorts them it yields no key twice. *)
Theorem xml2html_find_of_class_keys (it : list Result) (cls : string)
    (level : nat) :
  Sorted xml2html.msg_key_le it →
  NoDup (xml2html.find_of_class it cls level)
  ∧ ∀ g, g ∈ xml2html.find_of_class it cls level ↔
         ∃ x, x ∈ it ∧ xml2html.css_class x = cls
              ∧ take level (split_key x) = g.
Proof.
  intros Hs. split; [|apply elem_of_xml2html_find_of_class].
  eapply sublist_NoDup; [|apply xml2html_find_of_class_sublist].
  apply group_results_NoDup_keys.
  eapply Sorted_fmap with (f:=id) in Hs; [by rewrite list_fmap_id in Hs|].
  apply xml2html_sorted.
Qed.

Lemma xml2html_find_of_class_keys_sample :
  NoDup (xml2html.find_of_class xml2html_sample "err" 2)
  ∧ ∀ g, g ∈ xml2html.find_of_class xml2html_sample "err" 2 ↔
         ∃ x, x ∈ xml2html_sample ∧ xml2html.css_class x = "err"
              ∧ take 2 (split_key x) = g.
Proof.
  apply (xml2html_find_of_class_keys xml2html_sample "err" 2).
  refine (bool_decide_unpack _ _). vm_compute. exact I.
Defined.

(** The severity [pkgcheck2html.py] derives with the table of
    [xml2html.py] and without excludes is the severity of [xml2html.py]. *)
Lemma css_class_xml2html (r : Result) :
  _class_mapper r = xml2html.rules → css_class r = xml2html.css_class r.
Proof.
  intros Hm. unfold css_class, ClassMapping_map, xml2html.css_class. rewrite Hm.
  unfold xml2html.rules. cbn [_excludes _class_mapping].
  rewrite lookup_empty. cbn [default]. rewrite lookup_empty. cbn [default].
  rewrite lookup_empty. cbn [default].
  rewrite bool_decide_false by (by intros ?%elem_of_nil). done.
Qed.

(** X7. On records classified by the table of [xml2html.py] the two
    scripts agree: the keys that [find_of_class] of [xml2html.py] yields
    for a severity are the keys that the entries of the index of
    [pkgcheck2html.py] list for it. *)
Theorem find_of_class_agree (it : list Result) (cls : string) (level : nat)
    (g : GroupKey) :
  Forall (λ x, _class_mapper x = xml2html.rules) it →
  g ∈ xml2html.find_of_class it cls level ↔
  ∃ k gs, (k, gs) ∈ find_of_class it cls level ∧ g ∈ gs.
Proof.
  intros Hall. rewrite Forall_forall in Hall.
  rewrite elem_of_xml2html_find_of_class. split.
  - intros (x & Hx & Hc & <-).
    destruct (find_of_class_complete_at it cls level x Hx) as (gs & Hin & Hg).
    { by rewrite css_class_xml2html by by apply Hall. }
    by exists (class x), gs.
  - intros (k & gs & (s & Hs & ->)%elem_of_find_of_class & Hg).
    rewrite sorted_Permutation, elem_of_elements in Hg.
    assert (g ∈ default ∅ (find_of_class_out it cls level !! k)) as Hg'
      by (by rewrite Hs).
    apply elem_of_find_of_class_out in Hg' as (x & Hx & Hc & _ & Hk).
    exists x. split_and!; [done| |done].
    by rewrite <- css_class_xml2html by by apply Hall.
Qed.

Lemma find_of_class_agree_sample :
  ["dev-libs"; "foo"] ∈ xml2html.find_of_class xml2html_sample "err" 2 ↔
  ∃ k gs, (k, gs) ∈ find_of_class xml2html_sample "err" 2
          ∧ ["dev-libs"; "foo"] ∈ gs.
Proof.
  apply (find_of_class_agree xml2html_sample "err" 2).
  by repeat constructor.
Defined.

(** ** The list of broken packages of [xml2html.py] *)

Lemma length_take_split_key (x : Result) :
  length (take 2 (split_key x)) = 2 ↔ category x ≠ "" ∧ package x ≠ "".
Proof.
  unfold split_key, is_empty.
  repeat case_bool_decide; simpl; intuition (done || congruence).
Qed.

Lemma write_borked_Written (written : list string) (keys : list GroupKey) :
  Forall (λ g, length g = 2) keys →
  ∃ lines, xml2html.write_borked written keys = xml2html.Written (written ++ lines)
           ∧ Forall2 (λ g line,
                        ∃ a b, g = [a; b]
                               ∧ line = "output.html#" +:+ a +:+ "/" +:+ b
                                          +:+ xml2html.nl)
                     keys lines.
Proof.
  intros Hall. revert written.
  induction Hall as [|g keys Hg _ IH]; intros written; simpl.
  - exists []. by rewrite app_nil_r.
  - destruct g as [|a [|b [|c t]]]; try done. simpl.
    destruct (IH (written ++ ["output.html#" +:+ a +:+ "/" +:+ b +:+ xml2html.nl]))
      as (lines & -> & Hl).
    eexists (_ :: lines). rewrite <- app_assoc. split; [done|].
    constructor; [|done]. by exists a, b.
Qed.

Lemma write_borked_TypeError (written : list string) (keys : list GroupKey) :
  Exists (λ g, length (take 2 g) ≠ 2) keys →
  ∃ lines, xml2html.write_borked written keys = xml2html.TypeError lines.
Proof.
  intros Hex. revert written.
  induction keys as [|g keys IH]; intros written; [by inv Hex|]. simpl.
  destruct (xml2html.borked_line (take 2 g)) as [line|] eqn:E; [|by eexists].
  apply IH. apply Exists_cons in Hex as [Hg|?]; [|done].
  by destruct (take 2 g) as [|a [|b [|c t]]].
Qed.

(** X8. [main] of [xml2html.py] writes the list of broken packages to
    its end, one line [output.html#category/package] for each key of the
    error index, when every record of an error class names its category
    and its package; a record of an error class without category or
    package makes the formatting of its line raise [TypeError]. *)
Theorem xml2html_main_borked (results : list Result) :
  (Forall (λ x, xml2html.css_class x = "err" →
                category x ≠ "" ∧ package x ≠ "") results →
   ∃ lines, xml2html.main_borked results = xml2html.Written lines
            ∧ Forall2 (λ g line,
                         ∃ a b, g = [a; b]
                                ∧ line = "output.html#" +:+ a +:+ "/" +:+ b
                                           +:+ xml2html.nl)
                      (xml2html.find_of_class results "err" 2) lines)
  ∧ (Exists (λ x, xml2html.css_class x = "err"
                  ∧ (category x = "" ∨ package x = "")) results →
     ∃ lines, xml2html.main_borked results = xml2html.TypeError lines).
Proof.
  unfold xml2html.main_borked. split.
  - intros Hall. rewrite Forall_forall in Hall.
    apply (write_borked_Written []).
    apply Forall_forall. intros g Hg.
    apply elem_of_xml2html_find_of_class in Hg as (x & Hx & Hc & <-).
    apply length_take_split_key. by apply Hall.
  - intros (x & Hx & Hc & Hempty)%Exists_exists.
    apply write_borked_TypeError. apply Exists_exists.
    exists (take 2 (split_key x)). split.
    + apply elem_of_xml2html_find_of_class. by exists x.
    + rewrite take_take. simpl. rewrite length_take_split_key.
      intros [Hcat Hpkg]. by destruct Hempty.
Qed.
(** ** The outcome of a lookup of maintainers *)

Lemma map_r_Raise_inv {A B} (f : A → result B) (l : list A) (e : exn) :
  map_r f l = Raise e → Exists (λ x, f x = Raise e) l.
Proof.
  induction l as [|x l IH]; simpl; [done|].
  destruct (f x) as [y|e'] eqn:E; simpl.
  - destruct (map_r f l) as [ys|e'']; simpl; [done|].
    intros [= ->]. right. by apply IH.
  - intros [= ->]. by left.
Qed.

Lemma map_r_format_maint (l : list Element) :
  (Forall (λ mt, findtext mt "email" ≠ None) l
   ∧ map_r format_maint l
     = Ok ((λ mt, replace "@gentoo.org" "@g.o" (or_empty (findtext mt "email")))
             <$> l))
  ∨ (Exists (λ mt, findtext mt "email" = None) l
     ∧ map_r format_maint l = Raise AttributeError).
Proof.
  induction l as [|mt l IH]; [left; by split|]. cbn [map_r].
  destruct (findtext mt "email") as [email|] eqn:E.
  - assert (format_maint mt = Ok (replace "@gentoo.org" "@g.o" email)) as ->
      by (unfold format_maint; by rewrite E).
    destruct IH as [[Hall Hm]|[Hex Hm]]; rewrite Hm; simpl.
    + left. split; [|by rewrite E]. constructor; [by rewrite E|done].
    + right. split; [by right|done].
  - assert (format_maint mt = Raise AttributeError) as ->
      by (unfold format_maint; by rewrite E).
    right. split; [by left|done].
Qed.

(** X9. What a lookup of maintainers comes to.  It answers with the
    empty list exactly when reading the metadata fails with [OSError].
    When the metadata is read, it returns exactly when every maintainer
    element has an e-mail address, and then with the addresses in the
    order of the document, [@gentoo.org] shortened to [@g.o], or with the
    sentinel list when there is none: never with the empty list.  It
    raises exactly the other failures of the parser, and
    [AttributeError] for a maintainer element without address; it never
    raises [OSError]. *)
Theorem MaintainerGetter_getitem_outcome (w : World)
    (self : MaintainerGetter) (k : string) :
  let p := path_join (repo self) [k; "metadata.xml"] in
  (MaintainerGetter_getitem w self k = Ok [] ↔ parse w p = Raise OSError)
  ∧ (∀ metadata ms, parse w p = Ok metadata →
       let formatted :=
         (λ mt, replace "@gentoo.org" "@g.o" (or_empty (findtext mt "email")))
           <$> findall metadata "maintainer" in
       MaintainerGetter_getitem w self k = Ok ms ↔
       Forall (λ mt, findtext mt "email" ≠ None) (findall metadata "maintainer")
       ∧ ms = (if bool_decide (formatted = []) then ["maintainer-needed"]
               else formatted))
  ∧ (∀ e, MaintainerGetter_getitem w self k = Raise e ↔
       (e ≠ OSError ∧ parse w p = Raise e)
       ∨ (e = AttributeError
          ∧ ∃ metadata, parse w p = Ok metadata
              ∧ Exists (λ mt, findtext mt "email" = None)
                       (findall metadata "maintainer"))).
Proof.
  intros p. unfold MaintainerGetter_getitem. fold p.
  destruct (parse w p) as [metadata|e0] eqn:Hp.
  - destruct (map_r_format_maint (findall metadata "maintainer"))
      as [[Hall Hm]|[Hex Hm]]; rewrite Hm; simpl.
    + split_and!.
      * split; [|done].
        by destruct (findall metadata "maintainer").
      * intros metadata' ms [= <-]. split.
        -- intros [= <-]. split; [done|].
           by destruct (findall metadata "maintainer").
        -- intros [_ ->]. by destruct (findall metadata "maintainer").
      * intros e. split; [done|].
        intros [[_ [=]]|[_ (metadata' & [= <-] & Hex)]].
        apply Exists_exists in Hex as (mt & Hmt & He).
        rewrite Forall_forall in Hall. by destruct (Hall mt Hmt).
    + split_and!.
      * by split.
      * intros metadata' ms [= <-]. split; [done|].
        intros [Hall _]. apply Exists_exists in Hex as (mt & Hmt & He).
        rewrite Forall_forall in Hall. by destruct (Hall mt Hmt).
      * intros e. split.
        -- intros [= <-]. right. split; [done|]. by exists metadata.
        -- by intros [[_ [=]]|[-> _]].
  - split_and!.
    + split.
      * by destruct e0.
      * by intros [= ->].
    + by intros metadata ms [=].
    + intros e. split.
      * destruct e0; try done; intros [= <-]; by left.
      * intros [[Hne [= ->]]|[_ (metadata & [=] & _)]]. by destruct e.
Qed.

(** ** Records without a category *)

(** [os.path.join] starts afresh at a component that begins with a
    slash. *)
Lemma path_join_absolute (a b : string) (ps : list string) :
  startswith b "/" = true → path_join a (b :: ps) = path_join b ps.
Proof. intros Hb. unfold path_join. cbn [foldl]. by rewrite Hb. Qed.

Lemma startswith_slash (s : string) : startswith ("/" +:+ s) "/" = true.
Proof.
  unfold startswith. change ("/" +:+ s) with (String "/" s).
  cbn [String.prefix]. destruct (ascii_dec "/" "/"); [|done]. by destruct s.
Qed.

(** X10. A record without a category is looked up outside the
    repository: the key of its lookup starts with a slash, so
    [os.path.join] drops the repository path, and the answer of the
    lookup does not depend on the repository. *)
Theorem MaintainerGetter_getitem_no_category (w : World)
    (repo1 repo2 : string) (x : Result) :
  category x = "" →
  path_join repo1 [join "/" [category x; package x]; "metadata.xml"]
  = path_join ("/" +:+ package x) ["metadata.xml"]
  ∧ MaintainerGetter_getitem w {| repo := repo1 |}
      (join "/" [category x; package x])
    = MaintainerGetter_getitem w {| repo := repo2 |}
        (join "/" [category x; package x]).
Proof.
  intros Hc.
  assert (∀ r, path_join r [join "/" [category x; package x]; "metadata.xml"]
               = path_join ("/" +:+ package x) ["metadata.xml"]) as Hpath.
  { intros r. rewrite Hc.
    change (join "/" [""; package x]) with ("/" +:+ package x).
    apply path_join_absolute, startswith_slash. }
  split; [apply Hpath|].
  unfold MaintainerGetter_getitem. simpl repo. by rewrite !Hpath.
Qed.

Lemma MaintainerGetter_getitem_no_category_sample :
  path_join "/usr/portage"
    [join "/" [category (sample_result "" "foo" "1.0" "X");
               package (sample_result "" "foo" "1.0" "X")]; "metadata.xml"]
  = path_join ("/" +:+ package (sample_result "" "foo" "1.0" "X"))
      ["metadata.xml"]
  ∧ MaintainerGetter_getitem sample_world {| repo := "/usr/portage" |}
      (join "/" [category (sample_result "" "foo" "1.0" "X");
                 package (sample_result "" "foo" "1.0" "X")])
    = MaintainerGetter_getitem sample_world {| repo := "/var/db/repos/gentoo" |}
        (join "/" [category (sample_result "" "foo" "1.0" "X");
                   package (sample_result "" "foo" "1.0" "X")]).
Proof.
  apply (MaintainerGetter_getitem_no_category sample_world "/usr/portage"
           "/var/db/repos/gentoo" (sample_result "" "foo" "1.0" "X")).
  reflexivity.
Defined.

(** ** The spellings of a maintainer *)

Lemma endswith_app (a suf : string) : endswith (a +:+ suf) suf = true.
Proof.
  induction a as [|c a IH].
  - simpl. destruct suf; simpl; by rewrite ?String.eqb_refl, ?Ascii.eqb_refl.
  - change (String c a +:+ suf) with (String c (a +:+ suf)).
    cbn [endswith]. rewrite IH. by destruct (String.eqb _ _).
Qed.

Lemma contains_at_false_cons (c : ascii) (s : string) :
  contains "@" (String c s) = false → c ≠ "@"%char ∧ contains "@" s = false.
Proof.
  rewrite contains_at_cons. intros [Hc Hs]%orb_false_elim.
  split; [|done]. by apply bool_decide_eq_false in Hc.
Qed.

Lemma prefix_at_false (old s : string) (c : ascii) :
  c ≠ "@"%char → String.prefix (String "@" old) (String c s) = false.
Proof.
  intros Hc. cbn [String.prefix].
  destruct (ascii_dec "@" c) as [<-|Hne]; done.
Qed.

(** [replace] passes over a text without [@] when it looks for a text
    that starts with [@]. *)
Lemma replace_no_at (old new a rest : string) :
  contains "@" a = false →
  replace (String "@" old) new (a +:+ rest)
  = a +:+ replace (String "@" old) new rest.
Proof.
  unfold replace. induction a as [|c a IH]; [done|].
  intros [Hc Ha]%contains_at_false_cons.
  change (String c a +:+ rest) with (String c (a +:+ rest)).
  cbn [replace_from]. rewrite prefix_at_false by done.
  rewrite IH by done. done.
Qed.

Lemma endswith_no_at (a rest suf : string) :
  contains "@" a = false →
  endswith (a +:+ rest) (String "@" suf) = endswith rest (String "@" suf).
Proof.
  induction a as [|c a IH]; [done|].
  intros [Hc Ha]%contains_at_false_cons.
  change (String c a +:+ rest) with (String c (a +:+ rest)).
  cbn [endswith]. rewrite IH by done.
  destruct (String.eqb_spec (String c (a +:+ rest)) (String "@" suf))
    as [[= -> _]|_]; done.
Qed.

Lemma app_at_inj (a b s t : string) :
  contains "@" a = false → contains "@" b = false →
  a +:+ String "@" s = b +:+ String "@" t → a = b.
Proof.
  revert b. induction a as [|c a IH]; intros [|d b] Ha Hb; simpl; try done.
  - intros [= <- _]. by apply contains_at_false_cons in Hb as [? _].
  - intros [= -> _]. by apply contains_at_false_cons in Ha as [? _].
  - apply contains_at_false_cons in Ha as [_ Ha].
    apply contains_at_false_cons in Hb as [_ Hb].
    intros [= -> Heq]. f_equal. by apply IH.
Qed.

Lemma normalize_maintainer_spellings (dev m : string) :
  contains "@" dev = false →
  m ∈ [dev; dev +:+ "@g.o"; dev +:+ "@gentoo.org"] →
  normalize_maintainer m = dev +:+ "@gentoo.org".
Proof.
  intros Hdev Hm. unfold normalize_maintainer.
  apply elem_of_cons in Hm as [->|Hm]; [by rewrite Hdev|].
  apply elem_of_cons in Hm as [->|Hm].
  { rewrite contains_at_app, orb_true_r. simpl negb. cbv iota.
    rewrite endswith_app. by rewrite replace_no_at. }
  apply list_elem_of_singleton in Hm as ->.
  rewrite contains_at_app, orb_true_r. simpl negb. cbv iota.
  by rewrite endswith_no_at.
Qed.

(** X11. The three spellings of a developer that [--maintainer] takes,
    [dev], [dev@g.o] and [dev@gentoo.org], are rewritten to the full
    address.  Without project expansion the set of names to match is then
    the short address [dev@g.o] alone, whatever the spelling was; the
    three spellings of the sentinel give the set of the sentinel, with or
    without project expansion. *)
Theorem main_match_spellings (limit : nat) (w : World) (args : Args)
    (dev m : string) :
  contains "@" dev = false →
  m ∈ [dev; dev +:+ "@g.o"; dev +:+ "@gentoo.org"] →
  normalize_maintainer m = dev +:+ "@gentoo.org"
  ∧ (dev = "maintainer-needed" →
     main_match limit w args (normalize_maintainer m)
     = Ok {[ "maintainer-needed" ]})
  ∧ (dev ≠ "maintainer-needed" → args_projects args = false →
     main_match limit w args (normalize_maintainer m)
     = Ok {[ dev +:+ "@g.o" ]}).
Proof.
  intros Hdev Hm.
  rewrite (normalize_maintainer_spellings dev m Hdev Hm). split_and!.
  - done.
  - by intros ->.
  - intros Hne Hp. rewrite main_match_no_projects; [|intros Heq|done].
    + by rewrite replace_no_at.
    + apply Hne. by apply (app_at_inj _ _ "gentoo.org" "gentoo.org").
Qed.

Lemma main_match_spellings_sample :
  normalize_maintainer "dev@g.o" = "dev" +:+ "@gentoo.org"
  ∧ ("dev" = "maintainer-needed" →
     main_match 10 sample_world (sample_args (Some "dev@g.o") false)
       (normalize_maintainer "dev@g.o")
     = Ok {[ "maintainer-needed" ]})
  ∧ ("dev" ≠ "maintainer-needed" → false = false →
     main_match 10 sample_world (sample_args (Some "dev@g.o") false)
       (normalize_maintainer "dev@g.o")
     = Ok {[ "dev" +:+ "@g.o" ]}).
Proof.
  apply (main_match_spellings 10 sample_world
           (sample_args (Some "dev@g.o") false) "dev" "dev@g.o").
  - reflexivity.
  - apply list_elem_of_further, list_elem_of_here.
Defined.
(** ** Resolving the members of projects *)

Lemma map_r_elem_of_inv {A B} (f : A → result B) (l : list A) (ys : list B)
    (y : B) :
  map_r f l = Ok ys → y ∈ ys → ∃ x, x ∈ l ∧ f x = Ok y.
Proof.
  intros Hys%map_r_Ok_inv Hy.
  induction Hys as [|x y' l ys Hx _ IH]; [by apply elem_of_nil in Hy|].
  apply elem_of_cons in Hy as [->|Hy].
  - exists x. split; [by left|done].
  - destruct (IH Hy) as (x' & ? & ?). exists x'. split; [by right|done].
Qed.

Lemma map_r_ext_Ok {A B} (f g : A → result B) (l : list A) (ys : list B) :
  (∀ x y, x ∈ l → f x = Ok y → g x = Ok y) →
  map_r f l = Ok ys → map_r g l = Ok ys.
Proof.
  revert ys. induction l as [|x l IH]; intros ys Hfg; simpl; [done|].
  destruct (f x) as [y|] eqn:Hx; simpl; [|done].
  destruct (map_r f l) as [ys'|] eqn:Hl; simpl; [|done].
  intros [= <-]. rewrite (Hfg x y) by (done || by left). simpl.
  rewrite (IH ys') by (done || intros; apply Hfg; (done || by right)). done.
Qed.

Lemma yielded_by_mono (limit : nat) (self : ProjectGetter) (x : Element)
    (ms : list (option string)) :
  (∀ k ms, ProjectGetter_getitem limit self k = Ok ms →
           ProjectGetter_getitem (S limit) self k = Ok ms) →
  yielded_by limit self x = Ok ms → yielded_by (S limit) self x = Ok ms.
Proof.
  intros IH. unfold yielded_by.
  destruct (map_r _ (findall x "subproject")) as [inh|] eqn:E; simpl; [|done].
  intros [= <-]. erewrite map_r_ext_Ok; [done| |exact E].
  intros sp y _. simpl. case_bool_decide; [apply IH|done].
Qed.

(** A call that returns returns the same when more nested calls are
    allowed. *)
Lemma ProjectGetter_getitem_mono (self : ProjectGetter) (limit : nat) :
  ∀ k ms, ProjectGetter_getitem limit self k = Ok ms →
          ProjectGetter_getitem (S limit) self k = Ok ms.
Proof.
  induction limit as [|limit IH]; intros k ms; [done|].
  rewrite !ProjectGetter_getitem_S.
  destruct (map_r _ (findall (projects self) "project")) as [ys|] eqn:E;
    simpl; [|done].
  intros [= <-]. erewrite map_r_ext_Ok; [done| |exact E].
  intros x y _. simpl. case_bool_decide; [|done]. by apply yielded_by_mono.
Qed.

Lemma ProjectGetter_getitem_le (self : ProjectGetter) (limit limit' : nat)
    (k : option string) (ms : list (option string)) :
  limit ≤ limit' → ProjectGetter_getitem limit self k = Ok ms →
  ProjectGetter_getitem limit' self k = Ok ms.
Proof.
  induction 1 as [|limit' _ IH]; [done|].
  intros Hms. by apply ProjectGetter_getitem_mono, IH.
Qed.

(** Nothing but the exhausted recursion makes a lookup fail. *)
Lemma ProjectGetter_getitem_Raise (self : ProjectGetter) (limit : nat) :
  ∀ k e, ProjectGetter_getitem limit self k = Raise e → e = RecursionError.
Proof.
  induction limit as [|limit IH]; intros k e; [by intros [= <-]|].
  rewrite ProjectGetter_getitem_S.
  destruct (map_r _ (findall (projects self) "project")) as [ys|e'] eqn:E;
    simpl; [done|].
  intros [= ->]. apply map_r_Raise_inv, Exists_exists in E as (x & _ & Hx).
  simpl in Hx. case_bool_decide; [|done]. unfold yielded_by in Hx.
  destruct (map_r _ (findall x "subproject")) as [inh|e'] eqn:E';
    simpl in Hx; [done|].
  injection Hx as ->.
  apply map_r_Raise_inv, Exists_exists in E' as (sp & _ & Hsp).
  simpl in Hsp. case_bool_decide; [|done]. by apply (IH _ _ Hsp).
Qed.

(** X12. The recursion limit decides only whether a lookup of the
    members of a project returns, not what it returns: a lookup that
    returns under a limit returns the same list under any larger limit;
    and no lookup fails in any other way than by exhausting the
    recursion. *)
Theorem ProjectGetter_getitem_limit (self : ProjectGetter) (limit : nat)
    (k : option string) :
  (∀ limit' ms, limit ≤ limit' →
     ProjectGetter_getitem limit self k = Ok ms →
     ProjectGetter_getitem limit' self k = Ok ms)
  ∧ (∀ e, ProjectGetter_getitem limit self k = Raise e → e = RecursionError).
Proof.
  split.
  - intros limit' ms. apply ProjectGetter_getitem_le.
  - apply ProjectGetter_getitem_Raise.
Qed.

Lemma yielded_by_Ok_inv (limit : nat) (self : ProjectGetter) (x : Element)
    (ms : list (option string)) (m : option string) :
  yielded_by limit self x = Ok ms → m ∈ ms →
  m ∈ (λ e, findtext e "email") <$> findall x "member"
  ∨ ∃ sp ms', sp ∈ findall x "subproject"
              ∧ get sp "inherit-members" = Some "1"
              ∧ ProjectGetter_getitem limit self (get sp "ref") = Ok ms'
              ∧ m ∈ ms'.
Proof.
  unfold yielded_by.
  destruct (map_r _ (findall x "subproject")) as [inh|] eqn:E; simpl; [|done].
  intros [= <-] [Hm|Hm]%elem_of_app; [by left|right].
  apply elem_of_concat in Hm as (ms' & Hm & Hms').
  destruct (map_r_elem_of_inv _ _ _ _ E Hms') as (sp & Hsp & Hy).
  simpl in Hy. case_bool_decide.
  - by exists sp, ms'.
  - injection Hy as <-. by apply elem_of_nil in Hm.
Qed.

Lemma ProjectGetter_getitem_sound (self : ProjectGetter) (limit : nat) :
  ∀ k ms m, ProjectGetter_getitem limit self k = Ok ms → m ∈ ms →
            ∃ k', rtc (inherits self) k k' ∧ direct_member self k' m.
Proof.
  induction limit as [|limit IH]; intros k ms m; [done|].
  rewrite ProjectGetter_getitem_S.
  destruct (map_r _ (findall (projects self) "project")) as [ys|] eqn:E;
    simpl; [|done].
  intros [= <-] (ms' & Hm & Hms')%elem_of_concat.
  destruct (map_r_elem_of_inv _ _ _ _ E Hms') as (x & Hx & Hy).
  simpl in Hy. case_bool_decide as Hk;
    [|injection Hy as <-; by apply elem_of_nil in Hm].
  destruct (yielded_by_Ok_inv _ _ _ _ _ Hy Hm)
    as [Hd|(sp & ms'' & Hsp & Hinh & Hms'' & Hm'')].
  - exists k. split; [done|]. by exists x.
  - destruct (IH _ _ _ Hms'' Hm'') as (k' & Hrtc & Hd).
    exists k'. split; [|done].
    apply rtc_l with (get sp "ref"); [|done]. by exists x, sp.
Qed.

Lemma ProjectGetter_getitem_complete (self : ProjectGetter)
    (k k' : option string) (m : option string) :
  rtc (inherits self) k k' → direct_member self k' m →
  ∀ limit ms, ProjectGetter_getitem limit self k = Ok ms → m ∈ ms.
Proof.
  intros Hrtc (x & Hx & Hk' & Hm).
  induction Hrtc as [k|k k1 k' Hinh _ IH]; intros [|limit] ms Hms; try done.
  - destruct (ProjectGetter_getitem_project _ _ _ _ _ Hms Hx Hk')
      as (ms' & Hms' & Hsub).
    apply Hsub. by apply (yielded_by_members _ _ _ _ _ Hms').
  - destruct (ProjectGetter_getitem_inherits _ _ _ _ _ Hms Hinh)
      as (ms' & Hms' & Hsub).
    apply Hsub. by apply (IH Hk' limit).
Qed.

(** X13. The members a lookup returns for a project are exactly the
    direct members of the projects that are reached from it along
    inheriting subprojects, itself included; a subproject that does not
    set [inherit-members] to 1 contributes nothing. *)
Theorem ProjectGetter_getitem_members (self : ProjectGetter) (limit : nat)
    (k : option string) (ms : list (option string)) :
  ProjectGetter_getitem limit self k = Ok ms →
  ∀ m, m ∈ ms ↔ ∃ k', rtc (inherits self) k k' ∧ direct_member self k' m.
Proof.
  intros Hms m. split.
  - by apply ProjectGetter_getitem_sound with limit.
  - intros (k' & Hrtc & Hd).
    by apply (ProjectGetter_getitem_complete self k k' m Hrtc Hd limit).
Qed.

Lemma ProjectGetter_getitem_members_sample :
  ProjectGetter_getitem 10 acyclic_projects (Some "p2@gentoo.org")
  = Ok [Some "dev@gentoo.org"]
  ∧ ∀ m, m ∈ [Some "dev@gentoo.org"] ↔
         ∃ k', rtc (inherits acyclic_projects) (Some "p2@gentoo.org") k'
               ∧ direct_member acyclic_projects k' m.
Proof.
  split; [reflexivity|].
  apply (ProjectGetter_getitem_members acyclic_projects 10
           (Some "p2@gentoo.org")).
  reflexivity.
Defined.

(** ** The projects of a maintainer *)

Lemma find_projects_for_maintainer_Ok (limit : nat) (self : ProjectGetter)
    (m : string) (ps : list (option string)) (p : option string) :
  find_projects_for_maintainer limit self m = Ok ps →
  p ∈ ps ↔
  (∃ x, x ∈ findall (projects self) "project" ∧ findtext x "email" = p)
  ∧ ∃ k', rtc (inherits self) p k' ∧ direct_member self k' (Some m).
Proof.
  unfold find_projects_for_maintainer.
  destruct (map_r _ (findall (projects self) "project")) as [ys|] eqn:E;
    simpl; [|done].
  intros [= <-]. rewrite elem_of_concat. split.
  - intros (l & Hp & Hl).
    destruct (map_r_elem_of_inv _ _ _ _ E Hl) as (x & Hx & Hy). simpl in Hy.
    destruct (ProjectGetter_getitem limit self (findtext x "email"))
      as [members|] eqn:Hmem; simpl in Hy; [|done].
    injection Hy as <-.
    case_bool_decide as Hin; [|by apply elem_of_nil in Hp].
    apply list_elem_of_singleton in Hp as ->. split; [by exists x|].
    by apply (ProjectGetter_getitem_sound self limit _ members).
  - intros [(x & Hx & <-) (k' & Hrtc & Hd)].
    destruct (map_r_elem_of _ _ _ _ E Hx) as (y & Hy & Hin). simpl in Hy.
    destruct (ProjectGetter_getitem limit self (findtext x "email"))
      as [members|] eqn:Hmem; simpl in Hy; [|done].
    injection Hy as <-. eexists. split; [|exact Hin].
    rewrite bool_decide_true; [apply list_elem_of_here|].
    by apply (ProjectGetter_getitem_complete self _ k' _ Hrtc Hd limit).
Qed.

(** X14. When [find_projects_for_maintainer] returns, it yields exactly
    the projects of the file that have the maintainer as member, directly
    or through inheriting subprojects. *)
Theorem find_projects_for_maintainer_spec (limit : nat)
    (self : ProjectGetter) (m : string) (ps : list (option string)) :
  find_projects_for_maintainer limit self m = Ok ps →
  ∀ p, p ∈ ps ↔
       (∃ x, x ∈ findall (projects self) "project" ∧ findtext x "email" = p)
       ∧ ∃ k', rtc (inherits self) p k' ∧ direct_member self k' (Some m).
Proof. intros Hps p. by apply find_projects_for_maintainer_Ok with limit. Qed.

Lemma find_projects_for_maintainer_spec_sample :
  find_projects_for_maintainer 10 acyclic_projects "dev@gentoo.org"
  = Ok [Some "p1@gentoo.org"; Some "p2@gentoo.org"]
  ∧ ∀ p, p ∈ [Some "p1@gentoo.org"; Some "p2@gentoo.org"] ↔
         (∃ x, x ∈ findall (projects acyclic_projects) "project"
               ∧ findtext x "email" = p)
         ∧ ∃ k', rtc (inherits acyclic_projects) p k'
                 ∧ direct_member acyclic_projects k' (Some "dev@gentoo.org").
Proof.
  split; [reflexivity|].
  apply (find_projects_for_maintainer_spec 10 acyclic_projects
           "dev@gentoo.org").
  reflexivity.
Defined.

Lemma find_projects_for_maintainer_Raise (limit : nat) (self : ProjectGetter)
    (m : string) (e : exn) :
  find_projects_for_maintainer limit self m = Raise e → e = RecursionError.
Proof.
  unfold find_projects_for_maintainer.
  destruct (map_r _ (findall (projects self) "project")) as [ys|e'] eqn:E;
    simpl; [done|].
  intros [= ->]. apply map_r_Raise_inv, Exists_exists in E as (x & _ & Hx).
  simpl in Hx.
  destruct (ProjectGetter_getitem limit self (findtext x "email"))
    as [members|e'] eqn:Hmem; simpl in Hx; [done|].
  injection Hx as ->. by apply (ProjectGetter_getitem_Raise _ _ _ _ Hmem).
Qed.

(** X15. [find_projects_for_maintainer] resolves every project of the
    file, whoever is asked for: when two projects of the file inherit
    from each other it fails with [RecursionError] for every maintainer
    and every recursion limit, also for a maintainer who is in neither of
    them. *)
Theorem find_projects_for_maintainer_cycle (self : ProjectGetter)
    (k k' : option string) (limit : nat) (m : string) :
  inherits self k k' → inherits self k' k →
  find_projects_for_maintainer limit self m = Raise RecursionError.
Proof.
  intros Hkk' Hk'k.
  destruct (find_projects_for_maintainer limit self m) as [ps|e] eqn:E.
  - exfalso. apply (ProjectGetter_getitem_cycle self k k' Hkk' Hk'k limit).
    destruct Hkk' as (x & _ & Hx & <- & _).
    unfold find_projects_for_maintainer in E.
    destruct (map_r _ (findall (projects self) "project")) as [ys|] eqn:E';
      simpl in E; [|done].
    destruct (map_r_elem_of _ _ _ _ E' Hx) as (y & Hy & _). simpl in Hy.
    destruct (ProjectGetter_getitem limit self (findtext x "email"))
      as [members|] eqn:Hmem; [by exists members|done].
  - f_equal. by apply (find_projects_for_maintainer_Raise limit self m).
Qed.

Lemma find_projects_for_maintainer_cycle_sample :
  find_projects_for_maintainer 10 cyclic_projects "nobody@gentoo.org"
  = Raise RecursionError.
Proof.
  apply (find_projects_for_maintainer_cycle cyclic_projects
           (Some "p1@gentoo.org") (Some "p2@gentoo.org") 10
           "nobody@gentoo.org");
    apply cyclic_projects_inherit.
Defined.
(** ** What is read from the input files *)

Lemma filter_r_app {A} (p : A → result bool) (l1 l2 : list A) :
  filter_r p (l1 ++ l2)
  = (xs ← filter_r p l1; ys ← filter_r p l2; Ok (xs ++ ys)).
Proof.
  induction l1 as [|x l1 IH]; simpl.
  - by destruct (filter_r p l2).
  - destruct (p x) as [[]|]; simpl; [| |done].
    + rewrite IH. destruct (filter_r p l1); simpl; [|done].
      by destruct (filter_r p l2).
    + done.
Qed.

Lemma get_results_from_cons (w : World) (mapper : ClassMapping)
    (verbose_flag : bool) (pkg_filter : Result → result bool)
    (input_path : string) (rest : list string) :
  get_results_from w mapper verbose_flag pkg_filter (input_path :: rest)
  = (checks ← read_input w input_path;
     rs ← get_results_of mapper verbose_flag pkg_filter (children checks);
     rs' ← get_results_from w mapper verbose_flag pkg_filter rest;
     Ok (rs ++ rs')).
Proof. done. Qed.

Lemma get_results_from_docs (w : World) (mapper : ClassMapping)
    (verbose_flag : bool) (pkg_filter : Result → result bool)
    (input_paths : list string) (rs : list Result) :
  get_results_from w mapper verbose_flag pkg_filter input_paths = Ok rs ↔
  ∃ docs, Forall2 (λ p d, read_input w p = Ok d) input_paths docs
          ∧ filter_r pkg_filter
              (filter (λ r, ¬ (verbose r ∧ verbose_flag = false))
                 ((λ el, Build_Result el mapper)
                    <$> concat (children <$> docs))) = Ok rs.
Proof.
  revert rs. induction input_paths as [|p paths IH]; intros rs.
  - simpl. split.
    + intros [= <-]. exists []. by split; [constructor|].
    + intros (docs & Hd & Hrs). by inv Hd.
  - rewrite get_results_from_cons.
    destruct (read_input w p) as [d|e] eqn:Hp; simpl.
    2: { split; [done|]. intros (docs & Hd & _).
         inversion Hd as [|? d' ? docs' Hd1 Hd2]; subst. congruence. }
    rewrite get_results_of_filter_r.
    split.
    + destruct (filter_r pkg_filter _) as [rs1|] eqn:E1; simpl; [|done].
      destruct (get_results_from _ _ _ _ _) as [rs2|] eqn:E2; simpl; [|done].
      intros [= <-]. destruct (proj1 (IH rs2) eq_refl) as (docs & Hd & Hrs).
      exists (d :: docs). split; [by constructor|].
      rewrite fmap_cons. cbn [concat].
      by rewrite fmap_app, filter_app, filter_r_app, E1, Hrs.
    + intros (docs & Hd & Hrs).
      inversion Hd as [|? d' ? docs' Hd1 Hd2]; subst.
      assert (d' = d) as -> by congruence.
      rewrite fmap_cons in Hrs. cbn [concat] in Hrs.
      rewrite fmap_app, filter_app, filter_r_app in Hrs. revert Hrs.
      destruct (filter_r pkg_filter (filter _ (_ <$> children d)))
        as [rs1|] eqn:E1; simpl; [|done].
      destruct (filter_r pkg_filter
                  (filter _ (_ <$> concat (children <$> docs'))))
        as [rs2|] eqn:E2; simpl; [|done].
      intros [= <-].
      assert (get_results_from w mapper verbose_flag pkg_filter paths = Ok rs2)
        as -> by (apply IH; by exists docs').
      done.
Qed.

(** X16. [get_results] returns exactly when every input file is parsed
    (standard input for the path [-]) and the filter raises on no record
    it is asked about; the records are then those of all documents, in
    the order of the files and of each document, that pass the verbose
    check and then the filter. *)
Theorem get_results_documents (w : World) (input_paths : list string)
    (class_mapping : gmap string string)
    (excludes : gmap string (gmap string (gmap string (list string))))
    (verbose_flag : bool) (pkg_filter : Result → result bool)
    (rs : list Result) :
  get_results w input_paths class_mapping excludes verbose_flag pkg_filter
    = Ok rs ↔
  ∃ docs, Forall2 (λ p d, read_input w p = Ok d) input_paths docs
          ∧ filter_r pkg_filter
              (filter (λ r, ¬ (verbose r ∧ verbose_flag = false))
                 ((λ el, {| _el := el;
                            _class_mapper :=
                              {| _class_mapping := class_mapping;
                                 _excludes := excludes |} |})
                    <$> concat (children <$> docs))) = Ok rs.
Proof. apply get_results_from_docs. Qed.

(** ** The records of [xml2html.py] *)





(** ** The list [main] sorts *)

Lemma key_le_total : Total key_le.
Proof. intros a b. apply (total (lexico_le (A:=list string))). Qed.

Lemma key_le_trans : Transitive key_le.
Proof.
  intros a b c. unfold key_le.
  apply (transitivity (R:=lexico_le (A:=list string))).
Qed.

(** X18. The list of records that [main] hands on is sorted by
    (category, package, version, class) and is a rearrangement of what
    [get_results] returned; so grouping it at any depth loses and repeats
    nothing, no group key occurs twice, and sorting it again leaves it as
    it is. *)
Theorem main_results_sorted (limit : nat) (w : World) (args : Args)
    (class_mapping : gmap string string)
    (excludes : gmap string (gmap string (gmap string (list string))))
    (rs : list Result) :
  main_results limit w args class_mapping excludes = Ok rs →
  StronglySorted key_le rs
  ∧ (∃ maint_filter rs0,
       main_maint_filter limit w args = Ok maint_filter
       ∧ get_results w (args_files args) class_mapping excludes
           (args_verbose args)
           (combined_filter maint_filter (main_pkg_filter args)) = Ok rs0
       ∧ rs ≡ₚ rs0)
  ∧ sorted_by key_le rs = rs
  ∧ ∀ level, concat (leaves <$> deep_group rs level) = rs
             ∧ NoDup ((λ gr, gr.1) <$> group_results rs level).
Proof.
  unfold main_results.
  destruct (main_maint_filter limit w args) as [maint_filter|]; simpl; [|done].
  destruct (get_results _ _ _ _ _ _) as [rs0|] eqn:E; simpl; [|done].
  intros [= <-].
  assert (StronglySorted key_le (sorted_by key_le rs0)) as Hs.
  { apply StronglySorted_sorted_by; [apply key_le_total|apply key_le_trans]. }
  split_and!.
  - done.
  - exists maint_filter, rs0. split_and!; [done..|].
    apply sorted_by_Permutation.
  - by apply sorted_by_Sorted, StronglySorted_Sorted.
  - intros level. split.
    + apply deep_group_from_leaves.
    + by apply group_results_NoDup_keys, StronglySorted_Sorted.
Qed.

Lemma main_results_sorted_sample :
  StronglySorted key_le
    [sample_result "dev-libs" "bar" "1.0" "X";
     sample_result "dev-libs" "baz" "1.0" "Y";
     sample_result "dev-libs" "foo" "1.0" "X"]
  ∧ (∃ maint_filter rs0,
       main_maint_filter 10 sample_world (sample_args None false)
       = Ok maint_filter
       ∧ get_results sample_world
           (args_files (sample_args None false)) sample_mapping ∅
           (args_verbose (sample_args None false))
           (combined_filter maint_filter
              (main_pkg_filter (sample_args None false))) = Ok rs0
       ∧ [sample_result "dev-libs" "bar" "1.0" "X";
          sample_result "dev-libs" "baz" "1.0" "Y";
          sample_result "dev-libs" "foo" "1.0" "X"] ≡ₚ rs0)
  ∧ sorted_by key_le
      [sample_result "dev-libs" "bar" "1.0" "X";
       sample_result "dev-libs" "baz" "1.0" "Y";
       sample_result "dev-libs" "foo" "1.0" "X"]
    = [sample_result "dev-libs" "bar" "1.0" "X";
       sample_result "dev-libs" "baz" "1.0" "Y";
       sample_result "dev-libs" "foo" "1.0" "X"]
  ∧ ∀ level,
      concat (leaves <$> deep_group
                [sample_result "dev-libs" "bar" "1.0" "X";
                 sample_result "dev-libs" "baz" "1.0" "Y";
                 sample_result "dev-libs" "foo" "1.0" "X"] level)
      = [sample_result "dev-libs" "bar" "1.0" "X";
         sample_result "dev-libs" "baz" "1.0" "Y";
         sample_result "dev-libs" "foo" "1.0" "X"]
      ∧ NoDup ((λ gr, gr.1)
                 <$> group_results
                       [sample_result "dev-libs" "bar" "1.0" "X";
                        sample_result "dev-libs" "baz" "1.0" "Y";
                        sample_result "dev-libs" "foo" "1.0" "X"] level).
Proof.
  apply (main_results_sorted 10 sample_world (sample_args None false)
           sample_mapping ∅).
  vm_compute. reflexivity.
Defined.

(** ** Depths beyond the version *)

Lemma length_split_key (r : Result) : length (split_key r) ≤ 3.
Proof. unfold split_key. repeat case_match; simpl; lia. Qed.

Lemma group_results_loop_level (level : nat) (it : list Result) :
  3 ≤ level →
  ∀ prev_group prev_l,
    group_results_loop level prev_group prev_l (split_result_group it)
    = group_results_loop 3 prev_group prev_l (split_result_group it).
Proof.
  intros Hl. induction it as [|r it IH]; intros prev_group prev_l; [done|].
  unfold split_result_group in *. rewrite fmap_cons.
  cbn [group_results_loop].
  pose proof (length_split_key r).
  rewrite !(take_ge (split_key r)) by lia.
  by rewrite !IH.
Qed.

(** X19. A key has at most three components, so grouping at a depth
    beyond 3 is grouping at depth 3; and [deep_group], called at a depth
    beyond 3, yields the records themselves, in their order. *)
Theorem group_results_beyond_version (it : list Result) (level : nat) :
  3 ≤ level →
  group_results it level = group_results it 3
  ∧ (3 < level → deep_group it level = Leaf <$> it).
Proof.
  intros Hl. split; [by apply group_results_loop_level|].
  intros Hl'. unfold deep_group. replace (4 - level) with 0 by lia.
  cbn [deep_group_from].
  rewrite <- (group_results_concat it level) at 2.
  induction (group_results it level) as [|[g r] grs IH]; [done|].
  rewrite bind_cons, fmap_cons. cbn [concat]. by rewrite fmap_app, IH.
Qed.

Lemma group_results_beyond_version_sample :
  group_results sample_results 5 = group_results sample_results 3
  ∧ (3 < 5 → deep_group sample_results 5 = Leaf <$> sample_results).
Proof. apply (group_results_beyond_version sample_results 5). lia. Defined.
(** ** The maintainer filter *)

Lemma maint_filter_answer_Some (limit : nat) (w : World) (args : Args)
    (m : string) (match_ : gset string) (x : Result) :
  args_maintainer args = Some m → m ≠ "" →
  main_match limit w args (normalize_maintainer m) = Ok match_ →
  maint_filter_answer limit w args x
  = (ms ← entry_of w args x; Ok (intersects match_ ms)).
Proof.
  intros Hm Hne Hmatch. unfold maint_filter_answer.
  rewrite (main_maint_filter_Some limit w args m Hm Hne), Hmatch. done.
Qed.

(** X20. With [--maintainer] the filter asks the index of maintainers
    for the package of the record and keeps the record exactly when the
    entry names one of the addresses to match.  A record of a package
    whose metadata cannot be read for [OSError] has an empty entry and is
    never kept, whoever is asked for; any other failure of the lookup is
    the failure of the filter.  Without project expansion, and for any
    maintainer but the sentinel, the record is kept exactly when the entry
    names the short address of the maintainer. *)
Theorem maint_filter_answer_spec (limit : nat) (w : World) (args : Args)
    (m : string) (match_ : gset string) (x : Result) :
  args_maintainer args = Some m → m ≠ "" →
  main_match limit w args (normalize_maintainer m) = Ok match_ →
  (∀ ms, entry_of w args x = Ok ms →
     maint_filter_answer limit w args x
     = Ok (bool_decide (Exists (λ a, a ∈ match_) ms)))
  ∧ (parse w (path_join (args_repo args)
                [join "/" [category x; package x]; "metadata.xml"])
       = Raise OSError →
     maint_filter_answer limit w args x = Ok false)
  ∧ (∀ e, entry_of w args x = Raise e →
       maint_filter_answer limit w args x = Raise e)
  ∧ (args_projects args = false →
     normalize_maintainer m ≠ "maintainer-needed@gentoo.org" →
     ∀ ms, entry_of w args x = Ok ms →
       maint_filter_answer limit w args x
       = Ok (bool_decide
               (replace "@gentoo.org" "@g.o" (normalize_maintainer m) ∈ ms))).
Proof.
  intros Hm Hne Hmatch.
  rewrite (maint_filter_answer_Some limit w args m match_ x Hm Hne Hmatch).
  split_and!.
  - by intros ms ->.
  - intros Hp. unfold entry_of.
    by rewrite (MaintainerGetter_getitem_OSError
                  w {| repo := args_repo args |} _ Hp).
  - by intros e ->.
  - intros Hproj Hs ms ->. simpl. f_equal.
    rewrite (main_match_no_projects _ _ _ _ Hs Hproj) in Hmatch.
    injection Hmatch as <-. by rewrite intersects_singleton.
Qed.

Lemma maint_filter_answer_spec_sample :
  (∀ ms, entry_of sample_world (sample_args (Some "dev") false)
           (sample_result "dev-libs" "foo" "1.0" "X") = Ok ms →
     maint_filter_answer 10 sample_world (sample_args (Some "dev") false)
       (sample_result "dev-libs" "foo" "1.0" "X")
     = Ok (bool_decide
             (Exists (λ a, a ∈ ({[ "dev@g.o" ]} : gset string)) ms)))
  ∧ (parse sample_world
       (path_join (args_repo (sample_args (Some "dev") false))
          [join "/" [category (sample_result "dev-libs" "foo" "1.0" "X");
                     package (sample_result "dev-libs" "foo" "1.0" "X")];
           "metadata.xml"])
       = Raise OSError →
     maint_filter_answer 10 sample_world (sample_args (Some "dev") false)
       (sample_result "dev-libs" "foo" "1.0" "X") = Ok false)
  ∧ (∀ e, entry_of sample_world (sample_args (Some "dev") false)
            (sample_result "dev-libs" "foo" "1.0" "X") = Raise e →
       maint_filter_answer 10 sample_world (sample_args (Some "dev") false)
         (sample_result "dev-libs" "foo" "1.0" "X") = Raise e)
  ∧ (args_projects (sample_args (Some "dev") false) = false →
     normalize_maintainer "dev" ≠ "maintainer-needed@gentoo.org" →
     ∀ ms, entry_of sample_world (sample_args (Some "dev") false)
             (sample_result "dev-libs" "foo" "1.0" "X") = Ok ms →
       maint_filter_answer 10 sample_world (sample_args (Some "dev") false)
         (sample_result "dev-libs" "foo" "1.0" "X")
       = Ok (bool_decide
               (replace "@gentoo.org" "@g.o" (normalize_maintainer "dev")
                  ∈ ms))).
Proof.
  apply (maint_filter_answer_spec 10 sample_world
           (sample_args (Some "dev") false) "dev" {[ "dev@g.o" ]}
           (sample_result "dev-libs" "foo" "1.0" "X")).
  - reflexivity.
  - discriminate.
  - apply (main_match_no_projects 10 sample_world
             (sample_args (Some "dev") false) "dev@gentoo.org");
      [discriminate|reflexivity].
Defined.

(** ** The package filter *)

Lemma str_app_assoc (a b c : string) : (a +:+ b) +:+ c = a +:+ b +:+ c.
Proof.
  induction a as [|x a IH]; [done|].
  change (String x ((a +:+ b) +:+ c) = String x (a +:+ b +:+ c)). by f_equal.
Qed.

Lemma str_app_nil_r (a : string) : a +:+ "" = a.
Proof.
  induction a as [|x a IH]; [done|].
  change (String x (a +:+ "") = String x a). by f_equal.
Qed.

Lemma contains_comma_cons (c : ascii) (s : string) :
  contains "," (String c s) = bool_decide (c = ","%char) || contains "," s.
Proof.
  cbn [contains String.prefix].
  destruct (ascii_dec "," c) as [<-|Hne].
  - rewrite bool_decide_true by done. by destruct s.
  - rewrite bool_decide_false by congruence. done.
Qed.

Lemma split_on_no_comma (cur p rest : string) :
  contains "," p = false →
  split_on "," cur (p +:+ rest) = split_on "," (cur +:+ p) rest.
Proof.
  revert cur. induction p as [|c p IH]; intros cur.
  - intros _. simpl. by rewrite str_app_nil_r.
  - rewrite contains_comma_cons. intros [Hc Hp]%orb_false_elim.
    apply bool_decide_eq_false in Hc.
    change (String c p +:+ rest) with (String c (p +:+ rest)).
    cbn [split_on]. rewrite (proj2 (Ascii.eqb_neq c ",")) by done.
    rewrite IH by done. by rewrite str_app_assoc.
Qed.

Lemma split_on_join (cur n : string) (names : list string) :
  Forall (λ n, contains "," n = false) (n :: names) →
  split_on "," cur (join "," (n :: names)) = (cur +:+ n) :: names.
Proof.
  revert cur n. induction names as [|n' names IH]; intros cur n Hall.
  - apply Forall_cons in Hall as [Hn _]. cbn [join].
    rewrite <- (str_app_nil_r n) at 1. by rewrite split_on_no_comma.
  - apply Forall_cons in Hall as [Hn Hall].
    change (join "," (n :: n' :: names))
      with (n +:+ String "," (join "," (n' :: names))).
    rewrite split_on_no_comma by done. cbn [split_on].
    rewrite Ascii.eqb_refl. by rewrite IH.
Qed.

(** X21. [--pkg] takes names separated by commas: splitting the joined
    names gives the names back, and the package filter keeps a record
    exactly when its category and package, joined by a slash, are one of
    the names. *)
Theorem main_pkg_filter_names (args : Args) (names : list string)
    (x : Result) :
  names ≠ [] → Forall (λ n, contains "," n = false) names →
  args_pkg args = Some (join "," names) → join "," names ≠ "" →
  split "," (join "," names) = names
  ∧ main_pkg_filter args x
    = bool_decide (join "/" [category x; package x] ∈ names).
Proof.
  intros Hne Hall Hpkg Hj.
  assert (split "," (join "," names) = names) as Hsplit.
  { destruct names as [|n names]; [done|]. unfold split.
    by rewrite split_on_join. }
  split; [done|]. unfold main_pkg_filter. rewrite Hpkg.
  unfold truthy, is_empty, or_empty. rewrite bool_decide_false by done.
  cbn [negb default id]. rewrite Hsplit. unfold intersects.
  apply bool_decide_ext.
  rewrite Exists_cons, Exists_nil, elem_of_list_to_set. tauto.
Qed.

Lemma main_pkg_filter_names_sample :
  split "," (join "," ["dev-libs/foo"; "dev-libs/bar"])
  = ["dev-libs/foo"; "dev-libs/bar"]
  ∧ main_pkg_filter
      {| args_maintainer := None; args_projects := false;
         args_pkg := Some "dev-libs/foo,dev-libs/bar";
         args_repo := "/usr/portage"; args_timestamp := None;
         args_verbose := false; args_files := ["first.xml"] |}
      (sample_result "dev-libs" "baz" "1.0" "Y")
    = bool_decide
        (join "/" [category (sample_result "dev-libs" "baz" "1.0" "Y");
                   package (sample_result "dev-libs" "baz" "1.0" "Y")]
           ∈ ["dev-libs/foo"; "dev-libs/bar"]).
Proof.
  apply (main_pkg_filter_names
           {| args_maintainer := None; args_projects := false;
              args_pkg := Some "dev-libs/foo,dev-libs/bar";
              args_repo := "/usr/portage"; args_timestamp := None;
              args_verbose := false; args_files := ["first.xml"] |}
           ["dev-libs/foo"; "dev-libs/bar"]
           (sample_result "dev-libs" "baz" "1.0" "Y")).
  - discriminate.
  - repeat constructor.
  - reflexivity.
  - discriminate.
Defined.
(** ** The addresses to match, with project expansion *)

Lemma map_r_short (l : list (option string)) :
  (None ∈ l
   ∧ map_r (λ x : option string,
              match x with
              | Some s => Ok (replace "@gentoo.org" "@g.o" s)
              | None => Raise AttributeError
              end) l = Raise AttributeError)
  ∨ ((None ∉ l)
     ∧ ∃ names,
         map_r (λ x : option string,
                  match x with
                  | Some s => Ok (replace "@gentoo.org" "@g.o" s)
                  | None => Raise AttributeError
                  end) l = Ok names
         ∧ ∀ a, a ∈ names ↔
                ∃ p, Some p ∈ l ∧ a = replace "@gentoo.org" "@g.o" p).
Proof.
  induction l as [|[s|] l IH]; cbn [map_r].
  - right. split; [apply not_elem_of_nil|]. exists []. split; [done|].
    intros a. split; [by intros ?%elem_of_nil|].
    by intros (p & ?%elem_of_nil & _).
  - destruct IH as [[Hin ->]|[Hnot (names & -> & Hnames)]]; simpl.
    + left. split; [by right|done].
    + right. split; [by intros [[=]|?]%elem_of_cons|].
      eexists. split; [done|]. intros a. rewrite elem_of_cons, Hnames. split.
      * intros [->|(p & Hp & ->)]; [exists s|exists p];
          (split; [|done]); [by left|by right].
      * intros (p & [[= ->]|Hp]%elem_of_cons & ->); [by left|right].
        by exists p.
  - left. split; [by left|done].
Qed.

(** X22. With [--projects], and for any maintainer but the sentinel,
    [main] reads [metadata/projects.xml] below the repository; a failure
    to parse it, a missing file included, is not caught.  When the
    projects of the maintainer are found, the addresses to match are the
    short address of the maintainer and the short addresses of those
    projects, and the maintainer's own address is always among them; a
    project of the maintainer without identity makes the set-up fail with
    [AttributeError]. *)
Theorem main_match_projects (limit : nat) (w : World) (args : Args)
    (m : string) :
  m ≠ "maintainer-needed@gentoo.org" → args_projects args = true →
  (∀ e, parse w (path_join (args_repo args) ["metadata"; "projects.xml"])
          = Raise e →
     main_match limit w args m = Raise e)
  ∧ (∀ root ps,
       parse w (path_join (args_repo args) ["metadata"; "projects.xml"])
         = Ok root →
       find_projects_for_maintainer limit {| projects := root |} m = Ok ps →
       (None ∈ ps → main_match limit w args m = Raise AttributeError)
       ∧ (None ∉ ps →
          ∃ match_, main_match limit w args m = Ok match_
            ∧ replace "@gentoo.org" "@g.o" m ∈ match_
            ∧ ∀ a, a ∈ match_ ↔
                   a = replace "@gentoo.org" "@g.o" m
                   ∨ ∃ p, Some p ∈ ps
                          ∧ a = replace "@gentoo.org" "@g.o" p)).
Proof.
  intros Hm Hp. unfold main_match. rewrite bool_decide_true, Hp by done.
  split.
  - by intros e ->.
  - intros root ps -> Hps. simpl. rewrite Hps. simpl.
    destruct (map_r_short ps) as [[Hin ->]|[Hnot (names & -> & Hnames)]];
      simpl.
    + split; [done|]. by intros [].
    + split; [by intros ?|]. intros _. eexists. split; [done|].
      split; [apply elem_of_union_l; by apply elem_of_singleton|].
      intros a. rewrite elem_of_union, elem_of_singleton, elem_of_list_to_set.
      by rewrite Hnames.
Qed.

Lemma main_match_projects_sample :
  (∀ e, parse sample_world
          (path_join (args_repo (sample_args (Some "nobody@gentoo.org") true))
             ["metadata"; "projects.xml"]) = Raise e →
     main_match 10 sample_world (sample_args (Some "nobody@gentoo.org") true)
       "nobody@gentoo.org" = Raise e)
  ∧ (∀ root ps,
       parse sample_world
         (path_join (args_repo (sample_args (Some "nobody@gentoo.org") true))
            ["metadata"; "projects.xml"]) = Ok root →
       find_projects_for_maintainer 10 {| projects := root |}
         "nobody@gentoo.org" = Ok ps →
       (None ∈ ps →
        main_match 10 sample_world
          (sample_args (Some "nobody@gentoo.org") true) "nobody@gentoo.org"
        = Raise AttributeError)
       ∧ (None ∉ ps →
          ∃ match_,
            main_match 10 sample_world
              (sample_args (Some "nobody@gentoo.org") true)
              "nobody@gentoo.org" = Ok match_
            ∧ replace "@gentoo.org" "@g.o" "nobody@gentoo.org" ∈ match_
            ∧ ∀ a, a ∈ match_ ↔
                   a = replace "@gentoo.org" "@g.o" "nobody@gentoo.org"
                   ∨ ∃ p, Some p ∈ ps
                          ∧ a = replace "@gentoo.org" "@g.o" p)).
Proof.
  apply (main_match_projects 10 sample_world
           (sample_args (Some "nobody@gentoo.org") true)
           "nobody@gentoo.org").
  - discriminate.
  - reflexivity.
Defined.
